(** * Instance network tag rules engine and scanner

    A shallow embedding of

    - [google/cloud/security/scanner/audit/instance_network_tag_rules_engine.py]
      ([InstanceNetworkTagRulesEngine], [InstanceNetworkTagRuleBook], [Rule]),
    - [google/cloud/security/scanner/scanners/instance_network_tags_scanner.py]
      ([InstanceNetworkTagsScanner]: [_flatten_violations], [_find_violations],
      [_output_results], [run]),
    - the pure helpers of [scripts/gcp_setup/environment/gcloud_env.py] and
      the arguments of the connection of
      [google/cloud/security/common/data_access/_db_connector.py],

    and the properties of the rule engine proved over it.

    Python dictionaries keyed by the rule index are [gmap Z _], lists are
    lists, [None]-able values are options.  A generator is the list of the
    items it yields together with the exception, if any, that ends it.  The
    two debugging [print] statements of the source write to standard output
    only and are not part of the model. *)

From Stdlib Require Import ZArith Ascii String Permutation.
From stdpp Require Import base option list sorting strings gmap fin_maps.

Open Scope string_scope.
Open Scope list_scope.
Open Scope Z_scope.

(* ===================================================================== *)
(** * Exceptions and generators *)
(* ===================================================================== *)

(** The exceptions of the engine: the schema error raised by [add_rule]; the
    [AttributeError] of a method called on [None], as in
    [network_and_project.group(2)] when [re.search] returned [None]; the
    [IndexError] of [group] on a number the pattern has no group for. *)
Inductive exn :=
  | InvalidRulesSchemaError (msg : string)
  | AttributeError
  | IndexError.

(** A call that either returns or raises. *)
Inductive result (A : Type) :=
  | Return (a : A)
  | Raise (e : exn).
Arguments Return {A} a.
Arguments Raise {A} e.

(** A consumed generator: what it yielded, and the exception that stopped it
    ([None] when it was exhausted normally). *)
Record Gen (A : Type) := MkGen { yielded : list A; raised : option exn }.
Arguments MkGen {A} yielded raised.
Arguments yielded {A} g.
Arguments raised {A} g.

(** [itertools.chain()] with no argument. *)
Definition chain_nil {A} : Gen A := MkGen [] None.

(** [itertools.chain(g1, g2)]: [g2] is only reached when [g1] is exhausted
    without an exception. *)
Definition chain {A} (g1 g2 : Gen A) : Gen A :=
  match raised g1 with
  | Some e => g1
  | None => MkGen (yielded g1 ++ yielded g2) (raised g2)
  end.

(* ===================================================================== *)
(** * Regular expressions of the engine *)
(* ===================================================================== *)

Module Re.

(** One-character classes. *)
Inductive cclass :=
  | Dot                   (* [.]    : any character but a newline *)
  | NotChar (c : ascii)   (* [[^c]] : any character but [c] *)
  | AnyChar.              (* any character *)

Definition newline : ascii := ascii_of_nat 10.

Definition in_class (k : cclass) (a : ascii) : bool :=
  match k with
  | Dot => negb (Ascii.eqb a newline)
  | NotChar c => negb (Ascii.eqb a c)
  | AnyChar => true
  end.

(** The fragment of the pattern language the engine uses: a pattern is a
    sequence of items. *)
Inductive item :=
  | Lit (c : ascii)        (* a literal character *)
  | Star (k : cclass)      (* [k*], greedy *)
  | Group (k : cclass)     (* a parenthesised [k*]: greedy, capturing *)
  | Dollar.                (* end of the input *)

Definition pattern := list item.

Fixpoint lits (s : string) : pattern :=
  match s with
  | EmptyString => []
  | String c s' => Lit c :: lits s'
  end.

(** Greedy repetition by backtracking: take one more character of the class
    when there is one and the rest of the pattern then matches, otherwise
    stop here.  [acc] is the text consumed so far, [k] the continuation on
    the consumed text and the remaining input. *)
Fixpoint star_greedy {R} (cl : cclass) (k : string -> string -> option R)
    (acc s : string) : option R :=
  match s with
  | String a s' =>
      if in_class cl a then
        match star_greedy cl k (acc +:+ String a EmptyString) s' with
        | Some r => Some r
        | None => k acc s
        end
      else k acc s
  | EmptyString => k acc s
  end.

(** Match of the pattern at the start of [s]; the result is the list of the
    captured groups, in order. *)
Fixpoint match_here (p : pattern) : string -> option (list string) :=
  match p with
  | [] => fun _ => Some []
  | Lit c :: p' => fun s =>
      match s with
      | String a s' => if Ascii.eqb a c then match_here p' s' else None
      | EmptyString => None
      end
  | Star cl :: p' =>
      star_greedy cl (fun _ rest => match_here p' rest) EmptyString
  | Group cl :: p' =>
      star_greedy cl
        (fun got rest => cons got <$> match_here p' rest) EmptyString
  | Dollar :: p' => fun s =>
      match s with
      | EmptyString => match_here p' EmptyString
      | String _ _ => None
      end
  end.

(** [re.match(p, s)]: the pattern must match at position 0. *)
Definition re_match (p : pattern) (s : string) : option (list string) :=
  match_here p s.

(** [re.search(p, s)]: the leftmost position at which the pattern matches. *)
Fixpoint re_search (p : pattern) (s : string) : option (list string) :=
  match match_here p s with
  | Some g => Some g
  | None =>
      match s with
      | String _ s' => re_search p s'
      | EmptyString => None
      end
  end.

(** [m.group(n)] for [n >= 1]. *)
Definition group (m : list string) (n : nat) : option string :=
  m !! (n - 1)%nat.

End Re.

(** The pattern of [re.search] in [Rule.find_violations]: the literal
    [compute/], a greedy run of [.], the literal [/projects/], a first group
    capturing a greedy run of characters other than [/], a greedy run of [.],
    the literal [networks/], and a second group capturing a greedy run of
    characters other than [/]. *)
Definition NETWORK_RE : Re.pattern :=
  Re.lits "compute/" ++ [Re.Star Re.Dot] ++ Re.lits "/projects/" ++
  [Re.Group (Re.NotChar "/"%char); Re.Star Re.Dot] ++ Re.lits "networks/" ++
  [Re.Group (Re.NotChar "/"%char)].

(** Modelled from the spec: [regex_util.escape_and_globify], imported by the
    rules engine from [google.cloud.security.common.util], is not among the
    sources.  The specification gives the glob alphabet as [*], which matches
    any substring including the empty one, and literal characters, which are
    matched exactly (metacharacters escaped); the compiled matcher is anchored
    to the entire input. *)
Fixpoint globify (glob : string) : Re.pattern :=
  match glob with
  | EmptyString => []
  | String c g' =>
      (if Ascii.eqb c "*"%char then Re.Star Re.AnyChar else Re.Lit c)
        :: globify g'
  end.

(** Modelled from the spec: [escape_and_globify], the compiled matcher of a
    glob, anchored at the end of the input; [re.match] anchors it at the
    start. *)
Definition escape_and_globify (glob : string) : Re.pattern :=
  globify glob ++ [Re.Dollar].

(** The scope test of [Rule.find_violations]: the truth value of
    [re.match(pattern, value)]. *)
Definition matches (p : Re.pattern) (value : string) : bool :=
  bool_decide (is_Some (Re.re_match p value)).

(* ===================================================================== *)
(** * Data model *)
(* ===================================================================== *)

(** One entry of the rule definitions, the dictionary parsed from the rules
    file.  The name and the two scopes are [None] when [rule_def.get(key)]
    is [None]; a list is [None] when its key is absent. *)
Record RuleDef := {
  def_name : option string;
  def_project_id : option string;
  def_network : option string;
  def_whitelist : option (list string);
  def_blacklist : option (list string)
}.

(** The parsed rules document; [add_rules] reads its ['rules'] key only,
    [None] when the key is absent. *)
Record RuleDefs := { rules : option (list RuleDef) }.

(** The dictionary [rule_def_resource] a [Rule] is built on.  The two lists are
    read with [self.rules.get(key, [])], the two patterns with
    [self.rules[key]]. *)
Record RuleResource := {
  res_whitelist : option (list string);
  res_blacklist : option (list string);
  res_project_id : Re.pattern;
  res_network : Re.pattern
}.

Record Rule := {
  rule_name : option string;
  rule_index : Z;
  rule_rules : RuleResource
}.

(** The [InstanceNetworkTag] objects the scanner hands to the engine, with the
    attributes [find_violations] reads; [nt_as_json] is the value of
    [as_json()], opaque to the engine. *)
Record InstanceNetworkTag := {
  nt_network : string;
  nt_project_id : string;
  nt_tags : option (list string);
  nt_instance_name : string;
  nt_as_json : string
}.

(** The named tuple [Rule.RuleViolation]. *)
Record RuleViolation := {
  resource_type : string;
  rv_rule_name : option string;
  rv_rule_index : Z;
  violation_type : string;
  project : string;
  network : string;
  tags : list string;
  instance_name : string;
  raw_data : string
}.

(** [InstanceNetworkTagRuleBook]: [resource_rules_map] and [rule_defs]. *)
Record RuleBook := {
  resource_rules_map : gmap Z Rule;
  rule_defs : RuleDefs
}.

(** [InstanceNetworkTagRulesEngine]: the path of the rules file and the rule
    book, [None] until [build_rule_book] has run. *)
Record RulesEngine := {
  rules_file_path : string;
  rule_book : option RuleBook
}.

(* ===================================================================== *)
(** * Rule.find_violations *)
(* ===================================================================== *)

(** [x or []] *)
Definition or_nil {A} (x : option (list A)) : list A := default [] x.

(** [t in l] on strings. *)
Definition str_in (t : string) (l : list string) : bool :=
  bool_decide (t ∈ l).

(** Truth value of a list: it is not empty. *)
Definition truthy {A} (l : list A) : bool :=
  match l with [] => false | _ :: _ => true end.

(** The condition of the inner [if]: some tag is in the blacklist, or some
    tag, among the tags kept by the filter [if whitelist], is not in the
    whitelist. *)
Definition violates (r : RuleResource) (tags : list string) : bool :=
  existsb (fun t => str_in t (or_nil (res_blacklist r))) tags
  || existsb (fun t => negb (str_in t (or_nil (res_whitelist r))))
       (List.filter (fun _ => truthy (or_nil (res_whitelist r))) tags).

(** The violation built by the [yield]. *)
Definition mk_violation (self : Rule) (t : InstanceNetworkTag)
    (project_id network : string) (tags : list string) : RuleViolation :=
  {| resource_type := "instance";
     rv_rule_name := rule_name self;
     rv_rule_index := rule_index self;
     violation_type := "INSTANCE_NETWORK_TAG_VIOLATION";
     project := project_id;
     network := network;
     tags := tags;
     instance_name := nt_instance_name t;
     raw_data := nt_as_json t |}.

(** The body of the [for] loop on one record: what it yields, or the exception
    it raises.  [network_and_project] is [None] when the search fails, and
    [.group(2)] then raises [AttributeError].  A match of [NETWORK_RE] has
    its two groups, so that [group(2)] itself does not fail
    ([NETWORK_RE_groups] below). *)
Definition find_violations_step (self : Rule) (t : InstanceNetworkTag)
    : result (list RuleViolation) :=
  match Re.re_search NETWORK_RE (nt_network t) with
  | None => Raise AttributeError
  | Some network_and_project =>
      match Re.group network_and_project 2 with
      | None => Raise IndexError
      | Some network =>
          let project_id := nt_project_id t in
          let tags := or_nil (nt_tags t) in
          if matches (res_network (rule_rules self)) network
             && matches (res_project_id (rule_rules self)) project_id
          then
            if violates (rule_rules self) tags
            then Return [mk_violation self t project_id network tags]
            else Return []
          else Return []
      end
  end.

(** [Rule.find_violations], consumed to its end. *)
Fixpoint find_violations (self : Rule)
    (instance_network_tag_list : list InstanceNetworkTag)
    : Gen RuleViolation :=
  match instance_network_tag_list with
  | [] => MkGen [] None
  | t :: rest =>
      match find_violations_step self t with
      | Raise e => MkGen [] (Some e)
      | Return vs =>
          let g := find_violations self rest in
          MkGen (vs ++ yielded g) (raised g)
      end
  end.

(* ===================================================================== *)
(** * InstanceNetworkTagRuleBook *)
(* ===================================================================== *)

(** ['{}'.format(x)] for a name that may be [None]. *)
Definition format_name (name : option string) : string :=
  default "None" name.

(** The condition under which [add_rule] raises:
    [(not whitelist and not blacklist) or (project_id is None) or
     (network is None)], the lists read with the default [[]]. *)
Definition faulty (rule_def : RuleDef) : bool :=
  (negb (truthy (or_nil (def_whitelist rule_def)))
   && negb (truthy (or_nil (def_blacklist rule_def))))
  || bool_decide (def_project_id rule_def = None)
  || bool_decide (def_network rule_def = None).

Definition faulty_rule (rule_def : RuleDef) : exn :=
  InvalidRulesSchemaError ("Faulty rule " +:+ format_name (def_name rule_def)).

(** The [Rule] that [add_rule] builds from a definition with both scopes. *)
Definition compile_rule (rule_def : RuleDef) (project_id network : string)
    (rule_index : Z) : Rule :=
  let rule_def_resource :=
    {| res_whitelist := Some (or_nil (def_whitelist rule_def));
       res_blacklist := Some (or_nil (def_blacklist rule_def));
       res_project_id := escape_and_globify project_id;
       res_network := escape_and_globify network |} in
  {| rule_name := def_name rule_def;
     rule_index := rule_index;
     rule_rules := rule_def_resource |}.

(** [add_rule].  The last test, [if not resource_rules], stores the rule only
    when no rule is stored under the index: a [Rule] object is always true.
    The branch for a missing scope after the schema test is not reached, since
    [faulty] holds of such a definition. *)
Definition add_rule (self : RuleBook) (rule_def : RuleDef) (rule_index : Z)
    : result RuleBook :=
  if faulty rule_def then Raise (faulty_rule rule_def)
  else
    match def_project_id rule_def, def_network rule_def with
    | Some project_id, Some network =>
        let rule := compile_rule rule_def project_id network rule_index in
        match resource_rules_map self !! rule_index with
        | Some _ => Return self
        | None =>
            Return {| resource_rules_map :=
                        <[rule_index := rule]> (resource_rules_map self);
                      rule_defs := rule_defs self |}
        end
    | _, _ => Raise (faulty_rule rule_def)
    end.

(** The loop of [add_rules] from position [i] of the enumeration.  The book is
    updated in place, so the rules added before an exception stay in it: the
    result is the book as the loop leaves it and the exception, if any. *)
Fixpoint add_rules_from (self : RuleBook) (i : Z) (l : list RuleDef)
    : RuleBook * option exn :=
  match l with
  | [] => (self, None)
  | rule :: l' =>
      match add_rule self rule i with
      | Raise e => (self, Some e)
      | Return self' => add_rules_from self' (i + 1) l'
      end
  end.

(** [add_rules]: [enumerate(rule_defs.get('rules', []))]. *)
Definition add_rules (self : RuleBook) (rule_defs : RuleDefs)
    : RuleBook * option exn :=
  add_rules_from self 0 (or_nil (rules rule_defs)).

(** [InstanceNetworkTagRuleBook.__init__].  A false [rule_defs] is [None] or
    the empty dictionary; on the empty dictionary, [{| rules := None |}] here,
    the second branch builds the same book as the first.  When [add_rules]
    raises, the constructor raises and no book is returned. *)
Definition RuleBook_init (rule_defs : option RuleDefs) : result RuleBook :=
  match rule_defs with
  | None =>
      Return {| resource_rules_map := ∅; rule_defs := {| rules := None |} |}
  | Some d =>
      match add_rules {| resource_rules_map := ∅; rule_defs := d |} d with
      | (self, None) => Return self
      | (_, Some e) => Raise e
      end
  end.

(** The order of the items of [resource_rules_map] by index. *)
Definition index_le (x y : Z * Rule) : Prop := x.1 <= y.1.

#[global] Instance index_le_dec x y : Decision (index_le x y).
Proof. unfold index_le. apply _. Defined.

(** [get_resource_rules]: the values of the dictionary, in the order of its
    table.  For the keys [0], ..., [n-1] that [add_rules] stores, that order
    is the increasing one, which the model takes for every dictionary; for
    other keys it depends on the layout of the table, and the statements
    below that involve several rules are made for every order. *)
Definition get_resource_rules (self : RuleBook) : list Rule :=
  (merge_sort index_le (map_to_list (resource_rules_map self))).*2.

(* ===================================================================== *)
(** * InstanceNetworkTagRulesEngine *)
(* ===================================================================== *)

(** The body of the loop of [find_policy_violations]: the rule's generator is
    chained after the ones before it. *)
Definition chain_step (instance_network_tag : list InstanceNetworkTag)
    (violations : Gen RuleViolation) (rule : Rule) : Gen RuleViolation :=
  chain violations (find_violations rule instance_network_tag).

(** The loop over the rules, from [itertools.chain()]. *)
Definition chain_rules (resource_rules : list Rule)
    (instance_network_tag : list InstanceNetworkTag) : Gen RuleViolation :=
  foldl (chain_step instance_network_tag) chain_nil resource_rules.

Section Engine.

(** [BaseRulesEngine._load_rule_definitions], which reads and parses the
    rules file; the base class is not among the sources, and the engine
    uses the parsed document only. *)
Variable load_rule_definitions : string -> option RuleDefs.

(** [InstanceNetworkTagRulesEngine.__init__] *)
Definition RulesEngine_init (rules_file_path : string) : RulesEngine :=
  {| rules_file_path := rules_file_path; rule_book := None |}.

(** [build_rule_book]: the attribute is assigned only when the constructor
    of the book returns. *)
Definition build_rule_book (self : RulesEngine) : result RulesEngine :=
  match RuleBook_init (load_rule_definitions (rules_file_path self)) with
  | Return book =>
      Return {| rules_file_path := rules_file_path self;
                rule_book := Some book |}
  | Raise e => Raise e
  end.

(** [find_policy_violations]: the engine after the call and the chained
    generator, or the exception of the rebuild. *)
Definition find_policy_violations (self : RulesEngine)
    (instance_network_tag : list InstanceNetworkTag) (force_rebuild : bool)
    : result (RulesEngine * Gen RuleViolation) :=
  let rebuilt :=
    if bool_decide (rule_book self = None) || force_rebuild
    then build_rule_book self
    else Return self in
  match rebuilt with
  | Raise e => Raise e
  | Return self' =>
      match rule_book self' with
      | None => Raise AttributeError
      | Some book =>
          Return (self',
                  chain_rules (get_resource_rules book) instance_network_tag)
      end
  end.

(** [InstanceNetworkTagRulesEngine.add_rules]: the rules go to the book when
  there is one. *)
Definition engine_add_rules (self : RulesEngine) (rules : RuleDefs)
    : RulesEngine * option exn :=
  match rule_book self with
  | Some book =>
      let '(book', e) := add_rules book rules in
      ({| rules_file_path := rules_file_path self;
          rule_book := Some book' |}, e)
  | None => (self, None)
  end.

End Engine.

(* ===================================================================== *)
(** * InstanceNetworkTagsScanner._flatten_violations *)
(* ===================================================================== *)

#[local] Set Warnings "-register-all".

(** The Python values of a flattened violation. *)
Inductive pyval :=
  | PNone
  | PStr (s : string)
  | PInt (z : Z)
  | PList (l : list pyval)
  | PDict (d : gmap string pyval).

Definition py_opt_str (o : option string) : pyval :=
  match o with Some s => PStr s | None => PNone end.

(** The body of the loop: [violation_data] is filled key by key, then the
    dictionary literal is yielded. *)
Definition flatten_violation (violation : RuleViolation) : gmap string pyval :=
  let violation_data : gmap string pyval := ∅ in
  let violation_data := <["project" := PStr (project violation)]> violation_data in
  let violation_data := <["network" := PStr (network violation)]> violation_data in
  let violation_data := <["tags" := PList (PStr <$> tags violation)]> violation_data in
  let violation_data :=
    <["instance_name" := PStr (instance_name violation)]> violation_data in
  let violation_data := <["raw_data" := PStr (raw_data violation)]> violation_data in
  list_to_map
    [("resource_id", PStr (instance_name violation));
     ("resource_type", PStr (resource_type violation));
     ("rule_index", PInt (rv_rule_index violation));
     ("rule_name", py_opt_str (rv_rule_name violation));
     ("violation_type", PStr (violation_type violation));
     ("violation_data", PDict violation_data)].

(** [_flatten_violations], consumed to its end. *)
Fixpoint _flatten_violations (violations : list RuleViolation)
    : list (gmap string pyval) :=
  match violations with
  | [] => []
  | violation :: rest => flatten_violation violation :: _flatten_violations rest
  end.

(* ===================================================================== *)
(** * Auxiliary definitions of the statements *)
(* ===================================================================== *)

(** The number of capturing groups of a pattern. *)
Fixpoint count_groups (p : Re.pattern) : nat :=
  match p with
  | [] => 0
  | Re.Group _ :: p' => S (count_groups p')
  | _ :: p' => count_groups p'
  end.

(** No [*] in the glob. *)
Fixpoint star_free (glob : string) : bool :=
  match glob with
  | EmptyString => true
  | String c g' => negb (Ascii.eqb c "*"%char) && star_free g'
  end.

(** The network path of a record has the shape [NETWORK_RE] looks for. *)
Definition conforms (t : InstanceNetworkTag) : Prop :=
  is_Some (Re.re_search NETWORK_RE (nt_network t)).

(** The network [find_violations] extracts from a record: group 2 of the
    search. *)
Definition extracted_network (t : InstanceNetworkTag) : option string :=
  Re.re_search NETWORK_RE (nt_network t) ≫= fun m => Re.group m 2.

(** The scope test of a rule on a record with the extracted network. *)
Definition in_scope (self : Rule) (t : InstanceNetworkTag) (network : string)
    : bool :=
  matches (res_network (rule_rules self)) network
  && matches (res_project_id (rule_rules self)) (nt_project_id t).

(* ===================================================================== *)
(** * Concrete inputs *)
(* ===================================================================== *)

Module Sample.

Definition path_net1 : string :=
  "https://www.googleapis.com/compute/v1/projects/p1/global/networks/net1".

(** The rule of the docstring of [add_rule], with the schema's key. *)
Definition reserved_def : RuleDef :=
  {| def_name := Some "reserved network tags";
     def_project_id := Some "*";
     def_network := Some "net1";
     def_whitelist := None;
     def_blacklist := Some ["reserved-tag"] |}.

Definition reserved_rule : Rule := compile_rule reserved_def "*" "net1" 0.

(** A whitelist rule. *)
Definition allowed_def : RuleDef :=
  {| def_name := Some "allowed network tags";
     def_project_id := Some "p*";
     def_network := Some "net1";
     def_whitelist := Some ["ok"];
     def_blacklist := None |}.

(** The docstring's rule as written there, with the key [project]: the
    schema's [project_id] is missing. *)
Definition docstring_def : RuleDef :=
  {| def_name := Some "reserved network tags";
     def_project_id := None;
     def_network := Some "network-1";
     def_whitelist := None;
     def_blacklist := Some ["reserved-tag"] |}.

Definition good_record : InstanceNetworkTag :=
  {| nt_network := path_net1;
     nt_project_id := "p1";
     nt_tags := Some ["reserved-tag"; "x"];
     nt_instance_name := "vm-1";
     nt_as_json := "{}" |}.

(** A record of network [net1] in project [p1] with the given tags. *)
Definition record_with (tags : list string) : InstanceNetworkTag :=
  {| nt_network := path_net1;
     nt_project_id := "p1";
     nt_tags := Some tags;
     nt_instance_name := "vm-2";
     nt_as_json := "{}" |}.

Definition allowed_rule : Rule := compile_rule allowed_def "p*" "net1" 1.

(** A record whose network path has no [networks/] part. *)
Definition bad_record : InstanceNetworkTag :=
  {| nt_network := "compute/v1/projects/p1/global/default";
     nt_project_id := "p1";
     nt_tags := Some ["reserved-tag"];
     nt_instance_name := "vm-0";
     nt_as_json := "{}" |}.

Definition good_violation : RuleViolation :=
  {| resource_type := "instance";
     rv_rule_name := Some "reserved network tags";
     rv_rule_index := 0;
     violation_type := "INSTANCE_NETWORK_TAG_VIOLATION";
     project := "p1";
     network := "net1";
     tags := ["reserved-tag"; "x"];
     instance_name := "vm-1";
     raw_data := "{}" |}.

Definition empty_book : RuleBook :=
  {| resource_rules_map := ∅; rule_defs := {| rules := None |} |}.

(** A rules file with two rules, and a loader that reads it at any path. *)
Definition two_rules : RuleDefs :=
  {| rules := Some [reserved_def; allowed_def] |}.

Definition load_two_rules (path : string) : option RuleDefs :=
  Some two_rules.

(** The book built from [two_rules], and the engine that holds it. *)
Definition two_rules_book : RuleBook :=
  {| resource_rules_map :=
       <[1 := compile_rule allowed_def "p*" "net1" 1]>
         {[ 0 := reserved_rule ]};
     rule_defs := two_rules |}.

Definition two_rules_engine : RulesEngine :=
  {| rules_file_path := "rules.yaml"; rule_book := Some two_rules_book |}.

End Sample.

(* ===================================================================== *)
(** * Auxiliary definitions of the statements on the rule book *)
(* ===================================================================== *)

(** The rule [add_rule] builds from a definition for an index, when the
    definition has both scopes. *)
Definition compiled (rule_def : RuleDef) (rule_index : Z) : option Rule :=
  match def_project_id rule_def, def_network rule_def with
  | Some project_id, Some network =>
      Some (compile_rule rule_def project_id network rule_index)
  | _, _ => None
  end.

(** Every rule of the book is stored under its own index. *)
Definition indexed (self : RuleBook) : Prop :=
  forall k r, resource_rules_map self !! k = Some r -> rule_index r = k.

(* ===================================================================== *)
(** * InstanceNetworkTagsScanner *)
(* ===================================================================== *)

(** The scanner, with the attributes its methods on violations read: the path
    of the rules file and the rules engine. *)
Record InstanceNetworkTagsScanner := {
  scanner_rules : string;
  rules_engine : RulesEngine
}.

(** [all_violations.extend(violations)]: the generator is consumed; when it
    raises, so does [extend]. *)
Definition extend {A} (all_violations : list A) (violations : Gen A)
    : result (list A) :=
  match raised violations with
  | Some e => Raise e
  | None => Return (all_violations ++ yielded violations)
  end.

Section Scanner.

(** The loader of the rules engine, as in [Engine]. *)
Variable load_rule_definitions : string -> option RuleDefs.

(** [InstanceNetworkTagsScanner.__init__]: the engine is created on the rules
    file and its rule book is built. *)
Definition Scanner_init (rules : string) : result InstanceNetworkTagsScanner :=
  match build_rule_book load_rule_definitions (RulesEngine_init rules) with
  | Return engine =>
      Return {| scanner_rules := rules; rules_engine := engine |}
  | Raise e => Raise e
  end.

(** The loop of [_find_violations]: each element of the data is the list of
    network tag objects of one instance (the result of
    [create_network_tags], a list by the docstring of
    [parse_instance_network_instance]), handed to [find_policy_violations]
    without a forced rebuild.  The result is the engine as the loop leaves
    it and either the list [all_violations] or the exception that ended
    the loop. *)
Fixpoint find_violations_loop (engine : RulesEngine)
    (enforced_tags_data : list (list InstanceNetworkTag))
    (all_violations : list RuleViolation)
    : RulesEngine * result (list RuleViolation) :=
  match enforced_tags_data with
  | [] => (engine, Return all_violations)
  | instance_network_tag :: rest =>
      match find_policy_violations load_rule_definitions engine
              instance_network_tag false with
      | Raise e => (engine, Raise e)
      | Return (engine', violations) =>
          match extend all_violations violations with
          | Raise e => (engine', Raise e)
          | Return all_violations' =>
              find_violations_loop engine' rest all_violations'
          end
      end
  end.

(** [_find_violations] *)
Definition _find_violations (self : InstanceNetworkTagsScanner)
    (enforced_tags_data : list (list InstanceNetworkTag))
    : InstanceNetworkTagsScanner * result (list RuleViolation) :=
  let '(engine, all_violations) :=
    find_violations_loop (rules_engine self) enforced_tags_data [] in
  ({| scanner_rules := scanner_rules self; rules_engine := engine |},
   all_violations).

(** [_output_results]: the flattened violations, which the method hands to
    [_output_results_to_db] of the base scanner. *)
Definition _output_results (all_violations : list RuleViolation)
    : list (gmap string pyval) :=
  _flatten_violations all_violations.

(** [run], on the data [_retrieve] returned: the scanner after the run, and
    what reaches [_output_results_to_db] or the exception of the run. *)
Definition run (self : InstanceNetworkTagsScanner)
    (instance_network_tag_data : list (list InstanceNetworkTag))
    : InstanceNetworkTagsScanner * result (list (gmap string pyval)) :=
  let '(self', all_violations) :=
    _find_violations self instance_network_tag_data in
  match all_violations with
  | Return all_violations => (self', Return (_output_results all_violations))
  | Raise e => (self', Raise e)
  end.

End Scanner.

(* ===================================================================== *)
(** * Auxiliary definitions of the statements on paths *)
(* ===================================================================== *)

(** Whether a path conforms can be decided. *)
#[global] Instance conforms_dec t : Decision (conforms t).
Proof. unfold conforms. apply _. Defined.

#[global] Instance PStr_inj : Inj (=) (=) PStr.
Proof. by intros ?? [=]. Qed.

(** The character does not occur in the string. *)
Fixpoint no_char (c : ascii) (s : string) : bool :=
  match s with
  | EmptyString => true
  | String a s' => negb (Ascii.eqb a c) && no_char c s'
  end.

(** Every character of the string is in the class. *)
Fixpoint all_in (cl : Re.cclass) (s : string) : bool :=
  match s with
  | EmptyString => true
  | String a s' => Re.in_class cl a && all_in cl s'
  end.

(** The part of [NETWORK_RE] up to the first group, and the rest: the run of
    [.], the literal [networks/] and the second group. *)
Definition NETWORK_RE_head : Re.pattern :=
  Re.lits "compute/" ++ [Re.Star Re.Dot] ++ Re.lits "/projects/" ++
  [Re.Group (Re.NotChar "/"%char)].

Definition NETWORK_RE_tail : Re.pattern :=
  [Re.Star Re.Dot] ++ Re.lits "networks/" ++ [Re.Group (Re.NotChar "/"%char)].

(* ===================================================================== *)
(** * scripts/gcp_setup/environment/gcloud_env.py: pure helpers *)
(* ===================================================================== *)

(** [s[n:]]: the string without its first [n] characters, empty when it has
    no more than [n]. *)
Fixpoint slice_from (n : nat) (s : string) : string :=
  match n, s with
  | O, _ => s
  | S n', String _ s' => slice_from n' s'
  | S _, EmptyString => EmptyString
  end.

(** [id_from_name]: [name[len('%s/' % resource_type):]] *)
Definition id_from_name (name resource_type : string) : string :=
  slice_from (String.length (resource_type +:+ "/")) name.

(** [org_id_from_org_name] *)
Definition org_id_from_org_name (org_name : string) : string :=
  id_from_name org_name "organizations".

(** The values of the configuration are strings or [None]; such a value is
    true when it is a string that is not empty. *)
Definition conf_truthy (v : option string) : bool :=
  match v with
  | Some (String _ _) => true
  | _ => false
  end.

(** The two-character string made of two double quotes that
    [_sanitize_conf_values] writes. *)
Definition QUOTES : string := String "034" (String "034" EmptyString).

(** The body of the loop of [_sanitize_conf_values] for one key. *)
Definition sanitize_key (conf_values : gmap string (option string))
    (key : string) : gmap string (option string) :=
  match conf_values !! key with
  | Some v =>
      if conf_truthy v then conf_values
      else <[key := Some QUOTES]> conf_values
  | None => conf_values
  end.

(** [_sanitize_conf_values]: the loop over [conf_values.keys()], the
    dictionary updated in place and returned. *)
Definition _sanitize_conf_values (conf_values : gmap string (option string))
    : gmap string (option string) :=
  foldl sanitize_key conf_values (elements (dom conf_values)).

(* ===================================================================== *)
(** * common/data_access/_db_connector.py: the arguments of the connection *)
(* ===================================================================== *)

(** The exceptions of reading the configuration: a missing key, a subscript
    on [None], and a method called on [None]. *)
Inductive config_exn :=
  | KeyError (key : string)
  | TypeError
  | NoneAttributeError.

(** [os.getenv(name, default)] on the environment. *)
Definition getenv (env : gmap string string) (name dflt : string)
    : string :=
  match env !! name with
  | Some v => v
  | None => dflt
  end.

(** [global_configs[key]], on a [global_configs] that may be [None]. *)
Definition subscript (global_configs : option (gmap string string))
    (key : string) : config_exn + string :=
  match global_configs with
  | None => inl TypeError
  | Some d =>
      match d !! key with
      | Some v => inr v
      | None => inl (KeyError key)
      end
  end.

(** [global_configs.get(key, default)] *)
Definition get_default (global_configs : option (gmap string string))
    (key dflt : string) : config_exn + string :=
  match global_configs with
  | None => inl NoneAttributeError
  | Some d => inr (default dflt (d !! key))
  end.

(** The arguments [DbConnector.__init__] computes for [MySQLdb.connect]:
    host, user, database and password.  The default of each [os.getenv] is
    evaluated before the call, so that a missing key raises even when the
    environment has the variable. *)
Definition connect_args (env : gmap string string)
    (global_configs : option (gmap string string))
    : config_exn + (string * string * string * string) :=
  match subscript global_configs "db_host" with
  | inl e => inl e
  | inr db_host =>
      let host := getenv env "CLOUD_SQL_DB_HOST" db_host in
      match subscript global_configs "db_user" with
      | inl e => inl e
      | inr db_user =>
          let user := getenv env "CLOUD_SQL_DB_USER" db_user in
          match subscript global_configs "db_name" with
          | inl e => inl e
          | inr db_name_ =>
              let db_name := getenv env "CLOUD_SQL_DB_NAME" db_name_ in
              match get_default global_configs "db_password" "" with
              | inl e => inl e
              | inr db_password =>
                  let db_pass :=
                    getenv env "CLOUD_SQL_DB_PASSWORD" db_password in
                  inr (host, user, db_name, db_pass)
              end
          end
      end
  end.

(** What [_sanitize_conf_values] makes of one value. *)
Definition sanitized (v : option string) : option string :=
  if conf_truthy v then v else Some QUOTES.

(* ===================================================================== *)
(** * The definitions on concrete inputs *)
(* ===================================================================== *)

Import Sample.

Example search_net1 :
  Re.re_search NETWORK_RE path_net1 = Some ["p1"; "net1"].
Proof. reflexivity. Qed.

(** The run of [.] before [networks/] is greedy: the last occurrence wins. *)
Example search_last_networks :
  Re.re_search NETWORK_RE "compute/v1/projects/p/networks/networks/n/x"
  = Some ["p"; "n"].
Proof. reflexivity. Qed.

Example search_bad : Re.re_search NETWORK_RE (nt_network bad_record) = None.
Proof. reflexivity. Qed.

Example find_good :
  find_violations reserved_rule [good_record] = MkGen [good_violation] None.
Proof. reflexivity. Qed.

(** The whitelist: only tags outside it violate, and one violation is yielded
    however many they are. *)
Example whitelist_ok :
  find_violations allowed_rule [record_with ["ok"]] = MkGen [] None.
Proof. reflexivity. Qed.

Example whitelist_extra :
  yielded (find_violations allowed_rule [record_with ["ok"; "extra"; "more"]])
  = [mk_violation allowed_rule (record_with ["ok"; "extra"; "more"])
       "p1" "net1" ["ok"; "extra"; "more"]].
Proof. reflexivity. Qed.

(** A rule on [net2] yields nothing for a record of [net1]. *)
Example scope_exclusion :
  find_violations (compile_rule reserved_def "*" "net2" 0) [good_record]
  = MkGen [] None.
Proof. reflexivity. Qed.

Example glob_prefix : matches (escape_and_globify "net-*") "net-12" = true.
Proof. reflexivity. Qed.

Example add_docstring_def :
  add_rule empty_book docstring_def 0
  = Raise (InvalidRulesSchemaError "Faulty rule reserved network tags").
Proof. reflexivity. Qed.

Example build_two_rules :
  exists e book,
    build_rule_book load_two_rules (RulesEngine_init "rules.yaml") = Return e
    /\ rule_book e = Some book
    /\ get_resource_rules book
       = [compile_rule reserved_def "*" "net1" 0;
          compile_rule allowed_def "p*" "net1" 1].
Proof.
  do 2 eexists. split; [reflexivity|]. split; [reflexivity|].
  vm_compute. reflexivity.
Qed.

(* ===================================================================== *)
(** * Lemmas on the regular expressions *)
(* ===================================================================== *)

Section ReLemmas.
Import Re.

(** A successful greedy repetition ends in a successful continuation. *)
Lemma star_greedy_Some {R} cl (k : string -> string -> option R) s :
  forall acc r,
    star_greedy cl k acc s = Some r -> exists acc' s', k acc' s' = Some r.
Proof.
  induction s as [|a s IH]; intros acc r; simpl.
  - intros H. eauto.
  - destruct (in_class cl a); [|eauto].
    destruct (star_greedy cl k _ s) eqn:E.
    + intros [= <-]. eauto.
    + eauto.
Qed.

(** A match captures as many texts as the pattern has groups. *)
Lemma match_here_groups p :
  forall s m, match_here p s = Some m -> length m = count_groups p.
Proof.
  induction p as [|[c|cl|cl|] p IH]; intros s m; simpl.
  - by intros [= <-].
  - destruct s as [|a s]; [done|]. destruct (Ascii.eqb a c); [eauto|done].
  - intros H. apply star_greedy_Some in H as (? & s' & H). eauto.
  - intros H. apply star_greedy_Some in H as (got & s' & H).
    destruct (match_here p s') as [m'|] eqn:E; simplify_eq/=.
    f_equal. eauto.
  - destruct s; [eauto|done].
Qed.

Lemma re_search_groups p s :
  forall m, re_search p s = Some m -> length m = count_groups p.
Proof.
  induction s as [|a s IH]; intros m; simpl;
    destruct (match_here p _) eqn:E; try done;
    intros; simplify_eq; eauto using match_here_groups.
Qed.

(** A successful search with [NETWORK_RE] has its two groups. *)
Lemma NETWORK_RE_groups s m :
  re_search NETWORK_RE s = Some m ->
  exists project_id network, m = [project_id; network]
                             /\ group m 2 = Some network.
Proof.
  intros H. apply re_search_groups in H. cbn in H.
  destruct m as [|p [|n [|]]]; simplify_eq/=. eauto.
Qed.

(** The glob [*] takes the whole input. *)
Lemma star_any_all s :
  forall acc,
    star_greedy AnyChar (fun _ rest => match_here [Dollar] rest) acc s
    = Some [].
Proof. induction s as [|a s IH]; intros acc; simpl; [done|]. by rewrite IH. Qed.

Lemma literal_glob_match glob :
  star_free glob = true ->
  forall s, is_Some (re_match (escape_and_globify glob) s) <-> s = glob.
Proof.
  unfold escape_and_globify, re_match.
  induction glob as [|c g IH]; simpl; intros Hfree s.
  - destruct s; simpl; split; (done || by intros [? [=]] || eauto).
  - apply andb_true_iff in Hfree as [Hc Hg].
    destruct (Ascii.eqb c "*"%char) eqn:Ec; [done|]. simpl.
    destruct s as [|a s]; [split; [by intros [? [=]]|done]|].
    destruct (Ascii.eqb a c) eqn:Ea.
    + apply Ascii.eqb_eq in Ea as ->. rewrite (IH Hg s).
      split; [by intros ->|by intros [= ->]].
    + split; [by intros [? [=]]|]. intros [= -> ->].
      by rewrite Ascii.eqb_refl in Ea.
Qed.

End ReLemmas.

(* ===================================================================== *)
(** * The scope matcher *)
(* ===================================================================== *)

Lemma matches_true p s : matches p s = true <-> is_Some (Re.re_match p s).
Proof. unfold matches. apply bool_decide_eq_true. Qed.

(** C4.  The compiled scope matcher is anchored to the entire input: the glob
    [*] matches every string, the empty one included; a glob without [*]
    matches the string equal to it and no other, so [net-1] matches [net-1]
    and neither [net-12], nor a shorter string, nor the same letters in
    another case. *)
Theorem glob_matcher_anchored :
  (forall s, matches (escape_and_globify "*") s = true)
  /\ matches (escape_and_globify "*") "" = true
  /\ (forall s, matches (escape_and_globify "net-1") s = true <-> s = "net-1")
  /\ matches (escape_and_globify "net-1") "net-12" = false
  /\ matches (escape_and_globify "net-1") "net-" = false
  /\ matches (escape_and_globify "net-1") "xnet-1" = false
  /\ matches (escape_and_globify "net-1") "NET-1" = false
  /\ (forall glob s,
        star_free glob = true ->
        (matches (escape_and_globify glob) s = true <-> s = glob)).
Proof.
  assert (Hlit : forall glob s, star_free glob = true ->
            (matches (escape_and_globify glob) s = true <-> s = glob)).
  { intros glob s Hfree. rewrite matches_true.
    by apply literal_glob_match. }
  repeat split; try reflexivity; try (by apply Hlit).
  intros s. apply matches_true. unfold Re.re_match. cbn.
  rewrite star_any_all. eauto.
Qed.

Lemma glob_matcher_anchored_witness :
  star_free "Net-1" = true
  /\ (matches (escape_and_globify "Net-1") "net-1" = true
      <-> "net-1" = "Net-1").
Proof.
  split; [reflexivity|].
  apply (proj2 (proj2 (proj2 (proj2 (proj2 (proj2 (proj2
           glob_matcher_anchored))))))).
  reflexivity.
Defined.

(* ===================================================================== *)
(** * Rule.find_violations *)
(* ===================================================================== *)

Lemma str_in_true t l : str_in t l = true <-> t ∈ l.
Proof. unfold str_in. apply bool_decide_eq_true. Qed.

Lemma str_in_false t l : str_in t l = false <-> t ∉ l.
Proof. unfold str_in. apply bool_decide_eq_false. Qed.

Lemma truthy_true {A} (l : list A) : truthy l = true <-> l <> [].
Proof. destruct l; simpl; split; congruence. Qed.

Lemma filter_const {A} (b : bool) (l : list A) :
  List.filter (fun _ => b) l = if b then l else [].
Proof.
  induction l as [|x l IH]; simpl; [by destruct b|].
  rewrite IH. by destruct b.
Qed.

(** The condition of the [yield], in words: a tag in the blacklist, or a
    non-empty whitelist and a tag outside it. *)
Lemma violates_spec r tags :
  violates r tags = true <->
  (exists t, t ∈ tags /\ t ∈ or_nil (res_blacklist r))
  \/ (or_nil (res_whitelist r) <> []
      /\ exists t, t ∈ tags /\ t ∉ or_nil (res_whitelist r)).
Proof.
  unfold violates. rewrite orb_true_iff, filter_const, !existsb_exists.
  setoid_rewrite <- list_elem_of_In.
  split.
  - intros [(t & Ht & Hin)|(t & Ht & Hout)].
    + left. exists t. split; [done|]. by apply str_in_true.
    + right. destruct (truthy _) eqn:E; [|by apply elem_of_nil in Ht].
      split; [by apply truthy_true|].
      exists t. split; [done|]. apply str_in_false.
      by apply negb_true_iff.
  - intros [(t & Ht & Hin)|(Hne & t & Ht & Hout)].
    + left. exists t. split; [done|]. by apply str_in_true.
    + right. exists t. apply truthy_true in Hne as ->.
      split; [done|]. apply negb_true_iff. by apply str_in_false.
Qed.

Lemma chain_nil_l {A} (g : Gen A) : chain chain_nil g = g.
Proof. by destruct g. Qed.

(** The generator on one more record in front. *)
Lemma find_violations_cons self t l :
  find_violations self (t :: l)
  = chain (find_violations self [t]) (find_violations self l).
Proof.
  unfold chain. simpl.
  destruct (find_violations_step self t); simpl; [|done].
  by rewrite app_nil_r.
Qed.

Lemma chain_assoc {A} (g1 g2 g3 : Gen A) :
  chain (chain g1 g2) g3 = chain g1 (chain g2 g3).
Proof.
  unfold chain. destruct g1 as [y1 [e1|]], g2 as [y2 [e2|]]; simpl; try done.
  by rewrite app_assoc.
Qed.

(** The generator on a concatenation is the chain of the generators. *)
Lemma find_violations_app self l1 l2 :
  find_violations self (l1 ++ l2)
  = chain (find_violations self l1) (find_violations self l2).
Proof.
  induction l1 as [|t l1 IH]; [symmetry; apply (chain_nil_l (A:=RuleViolation))|].
  rewrite <- app_comm_cons, (find_violations_cons self t (l1 ++ l2)), IH.
  rewrite (find_violations_cons self t l1). by rewrite chain_assoc.
Qed.

Lemma conforms_extracted t :
  conforms t <-> is_Some (extracted_network t).
Proof.
  unfold conforms, extracted_network. split.
  - intros [m Hm]. rewrite Hm. simpl.
    apply NETWORK_RE_groups in Hm as (? & n & _ & ->). eauto.
  - intros [n Hn]. destruct (Re.re_search _ _); [eauto|done].
  Qed.

(** The loop body on a record whose network is extracted. *)
Lemma find_violations_step_extracted self t network :
  extracted_network t = Some network ->
  find_violations_step self t
  = Return (if in_scope self t network && violates (rule_rules self)
                                            (or_nil (nt_tags t))
            then [mk_violation self t (nt_project_id t) network
                    (or_nil (nt_tags t))]
            else []).
Proof.
  unfold extracted_network, find_violations_step, in_scope.
  destruct (Re.re_search _ _) as [m|]; [|done]. simpl. intros ->.
  by destruct (matches _ network && _), (violates _ _).
Qed.

Lemma find_violations_step_bad self t :
  ~ conforms t -> find_violations_step self t = Raise AttributeError.
Proof.
  unfold conforms, find_violations_step. intros H.
  destruct (Re.re_search _ _) as [m|]; [|done]. destruct H. eauto.
Qed.

(** On records that all conform the generator ends without an exception. *)
Lemma find_violations_conforming self l :
  Forall conforms l -> raised (find_violations self l) = None.
Proof.
  induction 1 as [|t l Ht _ IH]; [done|]. simpl.
  apply conforms_extracted in Ht as [n Hn].
  by rewrite (find_violations_step_extracted _ _ _ Hn).
Qed.

(** C1.  For a record whose network is extracted and which is in the scope of
    the rule (its network and its project match the rule's patterns), the
    rule yields a violation for the record if and only if a tag of the record
    is in the blacklist, or the whitelist is not empty and a tag of the
    record is not in it; the violation is then the one built from the rule
    and the record.  A record out of the scope yields nothing.  In a batch of
    conforming records, the record contributes what it yields alone, between
    what the records before it and after it yield. *)
Theorem find_violations_iff (self : Rule) (t : InstanceNetworkTag)
    (network : string) :
  extracted_network t = Some network ->
  let r := rule_rules self in
  let record_tags := or_nil (nt_tags t) in
  let v := mk_violation self t (nt_project_id t) network record_tags in
  (matches (res_project_id r) (nt_project_id t) = true ->
   matches (res_network r) network = true ->
   ((exists v', find_violations self [t] = MkGen [v'] None)
    <-> ((exists tag, tag ∈ record_tags /\ tag ∈ or_nil (res_blacklist r))
         \/ (or_nil (res_whitelist r) <> []
             /\ exists tag, tag ∈ record_tags
                            /\ tag ∉ or_nil (res_whitelist r))))
   /\ (find_violations self [t] = MkGen [v] None
       \/ find_violations self [t] = MkGen [] None))
  /\ (matches (res_project_id r) (nt_project_id t) = false
      \/ matches (res_network r) network = false ->
      find_violations self [t] = MkGen [] None)
  /\ (forall before after,
        Forall conforms before ->
        Forall conforms after ->
        find_violations self (before ++ t :: after)
        = MkGen (yielded (find_violations self before)
                 ++ yielded (find_violations self [t])
                 ++ yielded (find_violations self after)) None).
Proof.
  intros Hnet r record_tags v.
  assert (Hone : find_violations self [t]
                 = MkGen (if in_scope self t network
                             && violates r record_tags
                          then [v] else []) None).
  { simpl. rewrite (find_violations_step_extracted _ _ _ Hnet).
    simpl. by rewrite app_nil_r. }
  split; [|split].
  - intros Hp Hn. rewrite Hone. unfold in_scope. fold r.
    rewrite Hp, Hn. simpl. rewrite <- violates_spec.
    destruct (violates r record_tags); (split; [split|]).
    + done.
    + eauto.
    + by left.
    + by intros [v' [=]].
    + done.
    + by right.
  - intros Hout. rewrite Hone. unfold in_scope. fold r.
    destruct Hout as [-> | ->]; [by rewrite andb_false_r|done].
  - intros before after Hb Ha.
    assert (Ht : conforms t) by (apply conforms_extracted; eauto).
    rewrite find_violations_app, (find_violations_cons self t).
    pose proof (find_violations_conforming self _ Hb) as Eb.
    pose proof (find_violations_conforming self _ Ha) as Ea.
    pose proof (find_violations_conforming self [t]
                  (Forall_cons_2 _ _ _ Ht (Forall_nil_2 _))) as Et.
    unfold chain. rewrite Eb, Et. simpl. by rewrite Ea.
Qed.

Lemma find_violations_iff_witness :
  extracted_network Sample.good_record = Some "net1"
  /\ find_violations Sample.reserved_rule [Sample.good_record]
     = MkGen [Sample.good_violation] None.
Proof.
  split; [reflexivity|].
  destruct (find_violations_iff Sample.reserved_rule Sample.good_record
              "net1" eq_refl) as [H _].
  destruct (H eq_refl eq_refl) as [_ [H1|H1]].
  - exact H1.
  - discriminate H1.
Defined.

(** What the loop body returns comes from a record whose network is
    extracted. *)
Lemma find_violations_step_Return self t vs :
  find_violations_step self t = Return vs ->
  exists network,
    extracted_network t = Some network
    /\ vs = if in_scope self t network
               && violates (rule_rules self) (or_nil (nt_tags t))
            then [mk_violation self t (nt_project_id t) network
                    (or_nil (nt_tags t))]
            else [].
Proof.
  intros Hstep.
  destruct (extracted_network t) as [network|] eqn:E.
  - rewrite (find_violations_step_extracted _ _ _ E) in Hstep.
    exists network. split; congruence.
  - rewrite find_violations_step_bad in Hstep; [done|].
    rewrite conforms_extracted, E. by intros [? [=]].
Qed.

(** Every violation a rule yields is the one built from the rule and one
    record of the list, in the scope of the rule and violating it. *)
Lemma find_violations_elem self l v :
  v ∈ yielded (find_violations self l) ->
  exists t network,
    t ∈ l
    /\ extracted_network t = Some network
    /\ in_scope self t network = true
    /\ violates (rule_rules self) (or_nil (nt_tags t)) = true
    /\ v = mk_violation self t (nt_project_id t) network (or_nil (nt_tags t)).
Proof.
  induction l as [|t l IH]; simpl; [by intros ?%elem_of_nil|].
  destruct (find_violations_step self t) as [vs|e] eqn:Hstep; simpl;
    [|by intros ?%elem_of_nil].
  rewrite elem_of_app. intros [Hv|Hv].
  - apply find_violations_step_Return in Hstep as (network & Hnet & ->).
    exists t, network.
    destruct (in_scope self t network) eqn:Hs; simpl in Hv;
      [|by apply elem_of_nil in Hv].
    destruct (violates _ _) eqn:Hviol; [|by apply elem_of_nil in Hv].
    apply list_elem_of_singleton in Hv.
    repeat split; try done. apply list_elem_of_here.
  - destruct (IH Hv) as (t' & network & Ht' & H).
    exists t', network. split; [by apply list_elem_of_further|done].
Qed.

(** A rule yields at most one violation for each record of the list. *)
Lemma find_violations_length self l :
  (length (yielded (find_violations self l)) <= length l)%nat.
Proof.
  induction l as [|t l IH]; simpl; [done|].
  destruct (find_violations_step self t) as [vs|e] eqn:Hstep; simpl; [|lia].
  apply find_violations_step_Return in Hstep as (network & _ & ->).
  rewrite length_app. destruct (_ && _); simpl; lia.
Qed.

Example good_record_conforms : conforms Sample.good_record.
Proof. by eexists. Qed.

Example bad_record_not_conforms : ~ conforms Sample.bad_record.
Proof. by intros [m [=]]. Qed.

(** C2, as the code has it.  A record whose network path does not conform
    makes the rule's evaluation raise: the record is not skipped.  The
    exception ends the rule's generator there: what the conforming records
    before it yield has been yielded, and no record after it is evaluated,
    whatever it is. *)
Theorem find_violations_bad_path_aborts (self : Rule)
    (before after : list InstanceNetworkTag) (bad : InstanceNetworkTag) :
  Forall conforms before ->
  ~ conforms bad ->
  find_violations self (before ++ bad :: after)
  = MkGen (yielded (find_violations self before)) (Some AttributeError).
Proof.
  intros Hb Hbad. rewrite find_violations_app.
  unfold chain. rewrite (find_violations_conforming self _ Hb).
  simpl. rewrite (find_violations_step_bad _ _ Hbad).
  by rewrite app_nil_r.
Qed.

Lemma find_violations_bad_path_aborts_witness :
  find_violations Sample.reserved_rule
    ([Sample.good_record]
     ++ Sample.bad_record :: [Sample.good_record; Sample.good_record])
  = MkGen (yielded (find_violations Sample.reserved_rule
                      [Sample.good_record]))
      (Some AttributeError).
Proof.
  apply find_violations_bad_path_aborts.
  - repeat constructor. apply good_record_conforms.
  - apply bad_record_not_conforms.
Defined.

(** C2, as stated, fails: after a record whose path does not conform, the
    next record of the batch is not evaluated.  The record that yields a
    violation when it is evaluated alone yields none behind the bad one. *)
Lemma bad_path_not_confined :
  ~ conforms Sample.bad_record
  /\ conforms Sample.good_record
  /\ find_violations Sample.reserved_rule [Sample.good_record]
     = MkGen [Sample.good_violation] None
  /\ find_violations Sample.reserved_rule
       [Sample.bad_record; Sample.good_record]
     = MkGen [] (Some AttributeError)
  /\ ~ (forall (self : Rule) (bad : InstanceNetworkTag)
               (after : list InstanceNetworkTag) (v : RuleViolation),
          ~ conforms bad ->
          v ∈ yielded (find_violations self after) ->
          v ∈ yielded (find_violations self (bad :: after))).
Proof.
  split; [apply bad_record_not_conforms|].
  split; [apply good_record_conforms|].
  split; [reflexivity|]. split; [reflexivity|].
  intros H.
  specialize (H Sample.reserved_rule Sample.bad_record
                [Sample.good_record] Sample.good_violation
                bad_record_not_conforms).
  assert (Hin : Sample.good_violation
                ∈ yielded (find_violations Sample.reserved_rule
                             [Sample.good_record])).
  { change (Sample.good_violation ∈ [Sample.good_violation]).
    apply list_elem_of_here. }
  apply H in Hin. change (Sample.good_violation ∈ []) in Hin.
  by apply elem_of_nil in Hin.
Qed.

(** C10.  Every violation a rule yields has the resource type [instance] and
    the violation type [INSTANCE_NETWORK_TAG_VIOLATION], which is not the
    [INSTANCE_NETWORK_TAGS_VIOLATION] of the comment above [RuleViolation]. *)
Theorem violation_constants (self : Rule) (l : list InstanceNetworkTag)
    (v : RuleViolation) :
  v ∈ yielded (find_violations self l) ->
  resource_type v = "instance"
  /\ violation_type v = "INSTANCE_NETWORK_TAG_VIOLATION"
  /\ violation_type v <> "INSTANCE_NETWORK_TAGS_VIOLATION".
Proof.
  intros (t & network & _ & _ & _ & _ & ->)%find_violations_elem.
  repeat split. discriminate.
Qed.

Lemma violation_constants_witness :
  resource_type Sample.good_violation = "instance"
  /\ violation_type Sample.good_violation = "INSTANCE_NETWORK_TAG_VIOLATION"
  /\ violation_type Sample.good_violation
     <> "INSTANCE_NETWORK_TAGS_VIOLATION".
Proof.
  apply (violation_constants Sample.reserved_rule [Sample.good_record]).
  change (Sample.good_violation ∈ [Sample.good_violation]).
  apply list_elem_of_here.
Defined.

(* ===================================================================== *)
(** * InstanceNetworkTagRuleBook *)
(* ===================================================================== *)

(** The schema test, in words. *)
Lemma faulty_iff d :
  faulty d = true <->
  def_project_id d = None
  \/ def_network d = None
  \/ (or_nil (def_whitelist d) = [] /\ or_nil (def_blacklist d) = []).
Proof.
  unfold faulty.
  rewrite !orb_true_iff, andb_true_iff, !negb_true_iff, !bool_decide_eq_true.
  assert (Hnil : forall l : list string, truthy l = false <-> l = []).
  { intros [|]; simpl; split; congruence. }
  rewrite !Hnil. tauto.
Qed.

Lemma not_faulty_compiled d i :
  faulty d = false -> is_Some (compiled d i).
Proof.
  unfold faulty, compiled. intros H.
  apply orb_false_iff in H as [H Hn]. apply orb_false_iff in H as [_ Hp].
  apply bool_decide_eq_false in Hn, Hp.
  destruct (def_project_id d), (def_network d); by eauto.
Qed.

(** [add_rule] on a faulty definition. *)
Lemma add_rule_faulty self d i :
  faulty d = true -> add_rule self d i = Raise (faulty_rule d).
Proof. unfold add_rule. by intros ->. Qed.

(** [add_rule] on a definition that passes the schema test. *)
Lemma add_rule_valid self d i :
  faulty d = false ->
  exists rule,
    compiled d i = Some rule
    /\ add_rule self d i
       = Return (match resource_rules_map self !! i with
                 | Some _ => self
                 | None =>
                     {| resource_rules_map :=
                          <[i := rule]> (resource_rules_map self);
                        rule_defs := rule_defs self |}
                 end).
Proof.
  intros Hd. destruct (not_faulty_compiled d i Hd) as [rule Hrule].
  exists rule. split; [done|].
  unfold add_rule. rewrite Hd. unfold compiled in Hrule.
  destruct (def_project_id d), (def_network d); try done.
  injection Hrule as <-. by destruct (resource_rules_map self !! i).
Qed.

Lemma compiled_index d i rule : compiled d i = Some rule -> rule_index rule = i.
Proof.
  unfold compiled. destruct (def_project_id d), (def_network d); try done.
  by intros [= <-].
Qed.

Lemma compiled_name d i rule :
  compiled d i = Some rule -> rule_name rule = def_name d.
Proof.
  unfold compiled. destruct (def_project_id d), (def_network d); try done.
  by intros [= <-].
Qed.

(** The loop of [add_rules] on a concatenation. *)
Lemma add_rules_from_app self i l1 l2 :
  add_rules_from self i (l1 ++ l2)
  = match add_rules_from self i l1 with
    | (self', None) => add_rules_from self' (i + Z.of_nat (length l1)) l2
    | (self', Some e) => (self', Some e)
    end.
Proof.
  revert self i. induction l1 as [|d l1 IH]; intros self i; simpl.
  - by rewrite Z.add_0_r.
  - destruct (add_rule self d i) as [self'|e]; [|done].
    rewrite IH. by replace (i + 1 + Z.of_nat (length l1))
      with (i + Z.pos (Pos.of_succ_nat (length l1))) by lia.
Qed.

(** The loop of [add_rules] on definitions that all pass the schema test: it
    ends without an exception, keeps every rule of the book, stores under
    each free index the rule compiled from the definition at that position,
    and stores nothing else. *)
Lemma add_rules_from_valid l :
  forall self i,
    Forall (fun d => faulty d = false) l ->
    exists self',
      add_rules_from self i l = (self', None)
      /\ rule_defs self' = rule_defs self
      /\ (forall k r, resource_rules_map self !! k = Some r ->
                      resource_rules_map self' !! k = Some r)
      /\ (forall n d, l !! n = Some d ->
                      resource_rules_map self !! (i + Z.of_nat n) = None ->
                      is_Some (compiled d (i + Z.of_nat n))
                      /\ resource_rules_map self' !! (i + Z.of_nat n)
                         = compiled d (i + Z.of_nat n))
      /\ (forall k r, resource_rules_map self' !! k = Some r ->
                      resource_rules_map self !! k = Some r
                      \/ exists n d, l !! n = Some d
                                     /\ k = i + Z.of_nat n
                                     /\ compiled d k = Some r).
Proof.
  induction l as [|d l IH]; intros self i Hl; simpl.
  { exists self. repeat split; try done. by left. }
  apply Forall_cons in Hl as [Hd Hl].
  destruct (add_rule_valid self d i Hd) as (rule & Hrule & ->).
  set (self1 := match resource_rules_map self !! i with
                | Some _ => self
                | None => _
                end).
  assert (Hkeep1 : forall k r, resource_rules_map self !! k = Some r ->
                               resource_rules_map self1 !! k = Some r).
  { intros k r Hk. subst self1.
    destruct (resource_rules_map self !! i) eqn:Ei; [done|]. simpl.
    rewrite lookup_insert_ne; [done|]. congruence. }
  assert (Hnew1 : forall k r, resource_rules_map self1 !! k = Some r ->
                    resource_rules_map self !! k = Some r
                    \/ (k = i /\ r = rule
                        /\ resource_rules_map self !! i = None)).
  { intros k r. subst self1.
    destruct (resource_rules_map self !! i) eqn:Ei; [by left|]. simpl.
    destruct (decide (i = k)) as [->|Hne].
    - rewrite lookup_insert_eq. intros [= <-]. by right.
    - rewrite lookup_insert_ne by done. by left. }
  destruct (IH self1 (i + 1) Hl) as (self' & -> & Hdefs & Hkeep & Hadd & Hnew).
  exists self'. split; [done|]. split; [|split; [|split]].
  - rewrite Hdefs. subst self1. by destruct (resource_rules_map self !! i).
  - eauto.
  - intros [|n] d' Hn Hfree.
    + simpl in Hn. injection Hn as <-.
      rewrite Z.add_0_r in *. split; [by rewrite Hrule|].
      rewrite Hrule. apply Hkeep. subst self1. rewrite Hfree. simpl.
      by rewrite lookup_insert_eq.
    + simpl in Hn.
      replace (i + Z.of_nat (S n)) with (i + 1 + Z.of_nat n) in * by lia.
      apply Hadd; [done|].
      destruct (resource_rules_map self1 !! (i + 1 + Z.of_nat n)) as [r|]
        eqn:E1; [|done].
      apply Hnew1 in E1 as [E1|(E1 & _)]; [congruence|lia].
  - intros k r Hk. apply Hnew in Hk as [Hk|(n & d' & Hn & -> & Hc)].
    + apply Hnew1 in Hk as [Hk|(-> & -> & _)]; [by left|].
      right. exists 0%nat, d. rewrite Z.add_0_r. by repeat split.
    + right. exists (S n), d'. repeat split; [done|lia|].
      by replace (i + Z.of_nat (S n)) with (i + 1 + Z.of_nat n) by lia.
Qed.

(** C3.  [add_rule] raises exactly when the definition misses [project_id],
    or misses [network], or has both lists empty, and what it raises is the
    rules-schema error on the definition's name.  When a batch has a faulty
    definition after definitions that pass the test, [add_rules] ends with
    that error and leaves the book as the earlier definitions made it: every
    rule that was in the book is still there, and each earlier definition
    whose index was free has its compiled rule stored under it. *)
Theorem add_rule_schema_error (self : RuleBook) :
  (forall d i,
     ((exists e, add_rule self d i = Raise e) <->
      def_project_id d = None
      \/ def_network d = None
      \/ (or_nil (def_whitelist d) = [] /\ or_nil (def_blacklist d) = []))
     /\ (forall e, add_rule self d i = Raise e ->
                   e = InvalidRulesSchemaError
                         ("Faulty rule " +:+ format_name (def_name d))))
  /\ (forall before bad after,
        Forall (fun d => faulty d = false) before ->
        faulty bad = true ->
        exists self',
          add_rules self {| rules := Some before |} = (self', None)
          /\ add_rules self {| rules := Some (before ++ bad :: after) |}
             = (self', Some (faulty_rule bad))
          /\ (forall k r, resource_rules_map self !! k = Some r ->
                          resource_rules_map self' !! k = Some r)
          /\ (forall n d, before !! n = Some d ->
                          resource_rules_map self !! Z.of_nat n = None ->
                          is_Some (compiled d (Z.of_nat n))
                          /\ resource_rules_map self' !! Z.of_nat n
                             = compiled d (Z.of_nat n))).
Proof.
  split.
  - intros d i. rewrite <- faulty_iff. destruct (faulty d) eqn:Hd.
    + rewrite (add_rule_faulty _ _ _ Hd). split; [split; eauto|].
      by intros e [= <-].
    + destruct (add_rule_valid self d i Hd) as (rule & _ & ->).
      split; [split; [by intros [e [=]]|done]|done].
  - intros before bad after Hbefore Hbad. unfold add_rules. simpl.
    destruct (add_rules_from_valid before self 0 Hbefore)
      as (self' & Hrun & _ & Hkeep & Hadd & _).
    exists self'. split; [done|]. split; [|split; [done|]].
    + rewrite add_rules_from_app, Hrun. simpl.
      by rewrite (add_rule_faulty _ _ _ Hbad).
    + intros n d Hn Hfree. apply (Hadd n d Hn Hfree).
Qed.

Lemma add_rule_schema_error_witness :
  add_rules Sample.empty_book
    {| rules := Some [Sample.reserved_def; Sample.docstring_def;
                      Sample.allowed_def] |}
  = ({| resource_rules_map := {[ 0 := Sample.reserved_rule ]};
        rule_defs := {| rules := None |} |},
     Some (InvalidRulesSchemaError "Faulty rule reserved network tags")).
Proof.
  destruct (proj2 (add_rule_schema_error Sample.empty_book)
              [Sample.reserved_def] Sample.docstring_def
              [Sample.allowed_def])
    as (self' & Hrun & Hall & _).
  - repeat constructor.
  - reflexivity.
  - etrans; [exact Hall|].
    replace self'
      with (add_rules Sample.empty_book
              {| rules := Some [Sample.reserved_def] |}).1
      by (by rewrite Hrun).
    reflexivity.
Defined.

Lemma get_resource_rules_perm self :
  get_resource_rules self ≡ₚ (map_to_list (resource_rules_map self)).*2.
Proof.
  unfold get_resource_rules. by rewrite merge_sort_Permutation.
Qed.

Lemma get_resource_rules_length self :
  length (get_resource_rules self) = size (resource_rules_map self).
Proof.
  by rewrite get_resource_rules_perm, length_fmap, length_map_to_list.
Qed.

Lemma elem_of_get_resource_rules self r :
  r ∈ get_resource_rules self <->
  exists k, resource_rules_map self !! k = Some r.
Proof.
  rewrite get_resource_rules_perm, list_elem_of_fmap. split.
  - intros ([k r'] & -> & Hin). exists k.
    by apply elem_of_map_to_list.
  - intros [k Hk]. exists (k, r). split; [done|].
    by apply elem_of_map_to_list.
Qed.

(** In a book whose rules are stored under their own indices, the rules have
    pairwise distinct indices. *)
Lemma indexed_NoDup self :
  indexed self -> NoDup (rule_index <$> get_resource_rules self).
Proof.
  intros Hidx. rewrite get_resource_rules_perm.
  rewrite <- list_fmap_compose.
  rewrite (list_fmap_ext _ fst (map_to_list (resource_rules_map self))).
  - apply NoDup_fst_map_to_list.
  - intros n [k r] Hin. simpl. apply Hidx, elem_of_map_to_list.
    apply list_elem_of_lookup. eauto.
Qed.

Lemma add_rule_indexed self d i self' :
  indexed self -> add_rule self d i = Return self' -> indexed self'.
Proof.
  intros Hidx Hadd. destruct (faulty d) eqn:Hd.
  { by rewrite (add_rule_faulty _ _ _ Hd) in Hadd. }
  destruct (add_rule_valid self d i Hd) as (rule & Hrule & Heq).
  rewrite Heq in Hadd. injection Hadd as <-.
  destruct (resource_rules_map self !! i) eqn:Ei; [done|].
  intros k r. simpl. destruct (decide (i = k)) as [->|Hne].
  - rewrite lookup_insert_eq. intros [= <-]. by eapply compiled_index.
  - rewrite lookup_insert_ne by done. apply Hidx.
Qed.

(** C5.  When a rule is stored under the index, [add_rule] with a definition
    that passes the schema test returns without an exception and leaves the
    book as it is.  So the rule of the first definition added under an index
    stays: after any successful [add_rule] under the index, a second one
    changes nothing.  And a book whose rules are stored under their own
    indices stays so, its rules having pairwise distinct indices. *)
Theorem add_rule_first_wins (self : RuleBook) (d : RuleDef) (i : Z) :
  faulty d = false ->
  (forall r, resource_rules_map self !! i = Some r ->
             add_rule self d i = Return self)
  /\ (forall d1 self1,
        add_rule self d1 i = Return self1 ->
        is_Some (resource_rules_map self1 !! i)
        /\ (forall r, resource_rules_map self !! i = Some r ->
                      resource_rules_map self1 !! i = Some r)
        /\ (resource_rules_map self !! i = None ->
            resource_rules_map self1 !! i = compiled d1 i)
        /\ add_rule self1 d i = Return self1)
  /\ (forall self1,
        indexed self ->
        add_rule self d i = Return self1 ->
        indexed self1
        /\ NoDup (rule_index <$> get_resource_rules self1)).
Proof.
  intros Hd.
  assert (Hkept : forall b r, resource_rules_map b !! i = Some r ->
                              add_rule b d i = Return b).
  { intros b r Hr. destruct (add_rule_valid b d i Hd) as (rule & _ & ->).
    by rewrite Hr. }
  split; [by apply Hkept|]. split.
  - intros d1 self1 Hadd. destruct (faulty d1) eqn:Hd1.
    { by rewrite (add_rule_faulty _ _ _ Hd1) in Hadd. }
    destruct (add_rule_valid self d1 i Hd1) as (rule & Hrule & Heq).
    rewrite Heq in Hadd. injection Hadd as <-.
    destruct (resource_rules_map self !! i) as [r|] eqn:Ei.
    + repeat split; eauto; intros; congruence.
    + simpl. rewrite lookup_insert_eq.
      repeat split; eauto; try (intros; congruence).
      eapply Hkept. simpl. apply lookup_insert_eq.
  - intros self1 Hidx Hadd.
    pose proof (add_rule_indexed _ _ _ _ Hidx Hadd) as Hidx1.
    split; [done|]. by apply indexed_NoDup.
Qed.

Lemma add_rule_first_wins_witness :
  add_rule {| resource_rules_map := {[ 0 := Sample.reserved_rule ]};
              rule_defs := {| rules := None |} |}
    Sample.allowed_def 0
  = Return {| resource_rules_map := {[ 0 := Sample.reserved_rule ]};
              rule_defs := {| rules := None |} |}.
Proof.
  eapply (proj1 (add_rule_first_wins _ Sample.allowed_def 0 eq_refl)).
  reflexivity.
Defined.

(* ===================================================================== *)
(** * InstanceNetworkTagRulesEngine *)
(* ===================================================================== *)

Example build_two_rules_engine :
  build_rule_book Sample.load_two_rules (RulesEngine_init "rules.yaml")
  = Return Sample.two_rules_engine.
Proof. reflexivity. Qed.

Example find_two_rules :
  find_policy_violations Sample.load_two_rules
    (RulesEngine_init "rules.yaml") [Sample.good_record] false
  = Return (Sample.two_rules_engine,
            MkGen [Sample.good_violation;
                   mk_violation (compile_rule Sample.allowed_def "p*" "net1" 1)
                     Sample.good_record "p1" "net1" ["reserved-tag"; "x"]]
              None).
Proof. vm_compute. reflexivity. Qed.

Lemma chain_yielded_elem {A} (g1 g2 : Gen A) v :
  v ∈ yielded (chain g1 g2) -> v ∈ yielded g1 \/ v ∈ yielded g2.
Proof.
  unfold chain. destruct (raised g1); simpl; [by left|].
  by rewrite elem_of_app.
Qed.

Lemma chain_yielded_length {A} (g1 g2 : Gen A) :
  (length (yielded (chain g1 g2))
   <= length (yielded g1) + length (yielded g2))%nat.
Proof.
  unfold chain. destruct (raised g1); simpl; [lia|].
  rewrite length_app. lia.
Qed.

Section ChainRules.
Variable recs : list InstanceNetworkTag.

Lemma foldl_chain_elem rs :
  forall acc v,
    v ∈ yielded (foldl (chain_step recs) acc rs) ->
    v ∈ yielded acc
    \/ exists rule, rule ∈ rs /\ v ∈ yielded (find_violations rule recs).
Proof.
  induction rs as [|rule rs IH]; intros acc v; simpl; [by left|].
  intros [Hv|(rule' & Hin & Hv)]%IH.
  - apply chain_yielded_elem in Hv as [Hv|Hv]; [by left|].
    right. exists rule. split; [apply list_elem_of_here|done].
  - right. exists rule'. split; [by apply list_elem_of_further|done].
Qed.

Lemma foldl_chain_length rs :
  forall acc,
    (length (yielded (foldl (chain_step recs) acc rs))
     <= length (yielded acc) + length rs * length recs)%nat.
Proof.
  induction rs as [|rule rs IH]; intros acc; simpl; [lia|].
  etrans; [apply IH|].
  pose proof (chain_yielded_length acc (find_violations rule recs)).
  pose proof (find_violations_length rule recs).
  unfold chain_step. lia.
Qed.

(** Every violation of the chain is yielded by one of the rules. *)
Lemma chain_rules_elem rs v :
  v ∈ yielded (chain_rules rs recs) ->
  exists rule, rule ∈ rs /\ v ∈ yielded (find_violations rule recs).
Proof.
  intros [Hv|H]%foldl_chain_elem; [by apply elem_of_nil in Hv|done].
Qed.

(** The chain yields at most one violation for each rule and record. *)
Lemma chain_rules_length rs :
  (length (yielded (chain_rules rs recs)) <= length rs * length recs)%nat.
Proof. apply (foldl_chain_length rs chain_nil). Qed.

End ChainRules.

(** What [find_policy_violations] returns. *)
Lemma find_policy_violations_Return load self recs force self' g :
  find_policy_violations load self recs force = Return (self', g) ->
  exists book,
    rule_book self' = Some book
    /\ g = chain_rules (get_resource_rules book) recs.
Proof.
  unfold find_policy_violations.
  destruct (if _ || _ then _ else _) as [e1|]; [|done].
  destruct (rule_book e1) as [book|] eqn:Eb; [|done].
  intros [= <- <-]. eauto.
Qed.

(** C6.  With [N] rules in the book and [M] records in the batch,
    [find_policy_violations] yields at most [N * M] violations, in whatever
    order the rules are taken: a rule yields at most one violation for a
    record, and every violation carries the whole tag list of the record it
    was yielded for. *)
Theorem find_policy_violations_bound (load : string -> option RuleDefs)
    (self self' : RulesEngine) (recs : list InstanceNetworkTag)
    (force_rebuild : bool) (g : Gen RuleViolation) :
  find_policy_violations load self recs force_rebuild = Return (self', g) ->
  exists book,
    rule_book self' = Some book
    /\ (length (yielded g)
        <= size (resource_rules_map book) * length recs)%nat
    /\ (forall rs, rs ≡ₚ get_resource_rules book ->
          (length (yielded (chain_rules rs recs))
           <= size (resource_rules_map book) * length recs)%nat)
    /\ (forall rule t,
          (length (yielded (find_violations rule [t])) <= 1)%nat)
    /\ (forall v, v ∈ yielded g ->
          exists rule t,
            rule ∈ get_resource_rules book
            /\ t ∈ recs
            /\ find_violations rule [t] = MkGen [v] None
            /\ tags v = or_nil (nt_tags t)).
Proof.
  intros (book & Hbook & ->)%find_policy_violations_Return.
  exists book. split; [done|].
  assert (Hany : forall rs, rs ≡ₚ get_resource_rules book ->
            (length (yielded (chain_rules rs recs))
             <= size (resource_rules_map book) * length recs)%nat).
  { intros rs Hrs. rewrite <- get_resource_rules_length, <- Hrs.
    apply chain_rules_length. }
  split; [by apply Hany|]. split; [done|]. split.
  - intros rule t. apply (find_violations_length rule [t]).
  - intros v (rule & Hrule & Hv)%chain_rules_elem.
    apply find_violations_elem
      in Hv as (t & network & Ht & Hnet & Hs & Hviol & ->).
    exists rule, t. repeat split; try done.
    simpl. rewrite (find_violations_step_extracted _ _ _ Hnet), Hs, Hviol.
    done.
Qed.

Lemma find_policy_violations_bound_witness :
  exists book,
    rule_book Sample.two_rules_engine = Some book
    /\ (2 <= size (resource_rules_map book) * 1)%nat.
Proof.
  destruct (find_policy_violations_bound Sample.load_two_rules
              (RulesEngine_init "rules.yaml") Sample.two_rules_engine
              [Sample.good_record] false _ find_two_rules)
    as (book & Hbook & Hlen & _).
  exists book. split; [exact Hbook|exact Hlen].
Defined.

(** A loop of [add_rules] that ends without an exception has met no faulty
    definition. *)
Lemma add_rules_from_None l :
  forall self i self',
    add_rules_from self i l = (self', None) ->
    Forall (fun d => faulty d = false) l.
Proof.
  induction l as [|d l IH]; intros self i self'; simpl; [by constructor|].
  destruct (faulty d) eqn:Hd.
  { by rewrite (add_rule_faulty _ _ _ Hd). }
  destruct (add_rule self d i) as [self1|e]; [|done].
  intros Hrun. constructor; [done|]. by eapply IH.
Qed.

(** The book the constructor returns holds, under each position of the
    definitions, the rule compiled from the definition at that position, and
    nothing else. *)
Lemma RuleBook_init_rules doc book :
  RuleBook_init (Some doc) = Return book ->
  forall k r,
    resource_rules_map book !! k = Some r <->
    exists n d, or_nil (rules doc) !! n = Some d
                /\ k = Z.of_nat n
                /\ compiled d k = Some r.
Proof.
  unfold RuleBook_init, add_rules.
  destruct (add_rules_from _ 0 _) as [self' [e|]] eqn:Hrun; [done|].
  intros [= ->].
  pose proof (add_rules_from_None _ _ _ _ Hrun) as Hvalid.
  destruct (add_rules_from_valid _ {| resource_rules_map := ∅;
                                      rule_defs := doc |} 0 Hvalid)
    as (self' & Hrun' & _ & _ & Hadd & Hnew).
  rewrite Hrun in Hrun'. injection Hrun' as <-.
  intros k r. split.
  - intros [Hk|(n & d & Hn & -> & Hc)]%Hnew;
      [simpl in Hk; by rewrite lookup_empty in Hk|].
    exists n, d. by rewrite Z.add_0_l in *.
  - intros (n & d & Hn & -> & Hc).
    destruct (Hadd n d Hn) as [_ Hk]; [apply lookup_empty|].
    rewrite Z.add_0_l in Hk. by rewrite Hk.
Qed.

(** C7.  In a book built from a rules document, a violation, yielded with
    the rules taken in any order, has for [rule_index] the position in the
    definitions of the definition its rule was compiled from, and for
    [rule_name] the name of that definition. *)
Theorem rule_index_is_position (doc : RuleDefs) (book : RuleBook)
    (rs : list Rule) (recs : list InstanceNetworkTag) (v : RuleViolation) :
  RuleBook_init (Some doc) = Return book ->
  rs ≡ₚ get_resource_rules book ->
  v ∈ yielded (chain_rules rs recs) ->
  exists (n : nat) (d : RuleDef) (rule : Rule),
    or_nil (rules doc) !! n = Some d
    /\ compiled d (Z.of_nat n) = Some rule
    /\ resource_rules_map book !! Z.of_nat n = Some rule
    /\ v ∈ yielded (find_violations rule recs)
    /\ rv_rule_index v = Z.of_nat n
    /\ rv_rule_name v = def_name d.
Proof.
  intros Hinit Hrs (rule & Hrule & Hv)%chain_rules_elem.
  rewrite Hrs in Hrule. apply elem_of_get_resource_rules in Hrule as [k Hk].
  pose proof Hk as Hk'.
  apply (RuleBook_init_rules _ _ Hinit) in Hk' as (n & d & Hn & -> & Hc).
  exists n, d, rule. repeat split; try done.
  - apply find_violations_elem in Hv as (? & ? & _ & _ & _ & _ & ->).
    simpl. by eapply compiled_index.
  - apply find_violations_elem in Hv as (? & ? & _ & _ & _ & _ & ->).
    simpl. by eapply compiled_name.
Qed.

Lemma rule_index_is_position_witness :
  exists (n : nat) (d : RuleDef) (rule : Rule),
    [Sample.reserved_def; Sample.allowed_def] !! n = Some d
    /\ compiled d (Z.of_nat n) = Some rule
    /\ resource_rules_map Sample.two_rules_book !! Z.of_nat n = Some rule
    /\ Sample.good_violation
       ∈ yielded (find_violations rule [Sample.good_record])
    /\ rv_rule_index Sample.good_violation = Z.of_nat n
    /\ rv_rule_name Sample.good_violation = def_name d.
Proof.
  apply (rule_index_is_position Sample.two_rules Sample.two_rules_book
           [compile_rule Sample.allowed_def "p*" "net1" 1;
            Sample.reserved_rule]
           [Sample.good_record] Sample.good_violation).
  - reflexivity.
  - change (get_resource_rules Sample.two_rules_book)
      with ([Sample.reserved_rule;
             compile_rule Sample.allowed_def "p*" "net1" 1]).
    apply perm_swap.
  - vm_compute. apply list_elem_of_further, list_elem_of_here.
Defined.

(** [build_rule_book] reads the path only: the book the engine held is
    dropped. *)
Lemma build_rule_book_path load self :
  build_rule_book load self
  = build_rule_book load (RulesEngine_init (rules_file_path self)).
Proof. reflexivity. Qed.

Lemma build_rule_book_Return load self e :
  build_rule_book load self = Return e ->
  rules_file_path e = rules_file_path self
  /\ exists book,
       rule_book e = Some book
       /\ RuleBook_init (load (rules_file_path self)) = Return book.
Proof.
  unfold build_rule_book.
  destruct (RuleBook_init _) as [book|]; [|done].
  intros [= <-]. simpl. eauto.
Qed.

(** C8.  With the loader unchanged, an engine built once and the engine built
    a second time are the same engine, whatever book the engine held before
    the first build; [find_policy_violations] returns on both, with or
    without a forced rebuild, and yields the same violations, in the same
    order and so as multisets. *)
Theorem rebuild_same_violations (load : string -> option RuleDefs)
    (self once : RulesEngine) (recs : list InstanceNetworkTag)
    (force_rebuild : bool) :
  build_rule_book load self = Return once ->
  exists (twice : RulesEngine) (g1 g2 : Gen RuleViolation),
    build_rule_book load once = Return twice
    /\ find_policy_violations load once recs force_rebuild
       = Return (once, g1)
    /\ find_policy_violations load twice recs force_rebuild
       = Return (twice, g2)
    /\ twice = once
    /\ yielded g2 ≡ₚ yielded g1
    /\ g2 = g1
    /\ build_rule_book load (RulesEngine_init (rules_file_path self))
       = Return once.
Proof.
  intros Hbuild.
  pose proof (build_rule_book_Return _ _ _ Hbuild) as (Hpath & book & Hb & _).
  assert (Hagain : build_rule_book load once = Return once).
  { rewrite build_rule_book_path, Hpath, <- build_rule_book_path. done. }
  assert (Hfind : find_policy_violations load once recs force_rebuild
                  = Return (once,
                            chain_rules (get_resource_rules book) recs)).
  { unfold find_policy_violations.
    destruct (bool_decide _ || force_rebuild);
      [rewrite Hagain|]; by rewrite Hb. }
  exists once, (chain_rules (get_resource_rules book) recs),
    (chain_rules (get_resource_rules book) recs).
  repeat split; done.
Qed.

Lemma rebuild_same_violations_witness :
  exists (twice : RulesEngine) (g1 g2 : Gen RuleViolation),
    build_rule_book Sample.load_two_rules Sample.two_rules_engine
    = Return twice
    /\ find_policy_violations Sample.load_two_rules
         Sample.two_rules_engine [Sample.good_record] true
       = Return (Sample.two_rules_engine, g1)
    /\ find_policy_violations Sample.load_two_rules twice
         [Sample.good_record] true
       = Return (twice, g2)
    /\ twice = Sample.two_rules_engine
    /\ yielded g2 ≡ₚ yielded g1
    /\ g2 = g1
    /\ build_rule_book Sample.load_two_rules (RulesEngine_init "rules.yaml")
       = Return Sample.two_rules_engine.
Proof.
  apply (rebuild_same_violations Sample.load_two_rules
           {| rules_file_path := "rules.yaml";
              rule_book := Some Sample.empty_book |}).
  reflexivity.
Defined.

(* ===================================================================== *)
(** * InstanceNetworkTagsScanner._flatten_violations *)
(* ===================================================================== *)

Lemma flatten_violations_fmap violations :
  _flatten_violations violations = flatten_violation <$> violations.
Proof. induction violations as [|v l IH]; simpl; by f_equal. Qed.

(** C9.  The flattening yields one dictionary for each violation, in order.
    The dictionary of a violation has exactly the keys [resource_id],
    [resource_type], [rule_index], [rule_name], [violation_type] and
    [violation_data]; [resource_id] is the instance name and the next four
    are the violation's fields; [violation_data] is a dictionary with exactly
    the keys [project], [network], [tags], [instance_name] and [raw_data],
    each holding the violation's field of that name. *)
Theorem flatten_violations_shape :
  (forall violations,
     length (_flatten_violations violations) = length violations
     /\ forall i, _flatten_violations violations !! i
                  = flatten_violation <$> violations !! i)
  /\ (forall v,
        let d := flatten_violation v in
        dom d = {[ "resource_id"; "resource_type"; "rule_index"; "rule_name";
                   "violation_type"; "violation_data" ]}
        /\ d !! "resource_id" = Some (PStr (instance_name v))
        /\ d !! "resource_type" = Some (PStr (resource_type v))
        /\ d !! "rule_index" = Some (PInt (rv_rule_index v))
        /\ d !! "rule_name" = Some (py_opt_str (rv_rule_name v))
        /\ d !! "violation_type" = Some (PStr (violation_type v))
        /\ exists data,
             d !! "violation_data" = Some (PDict data)
             /\ dom data = {[ "project"; "network"; "tags"; "instance_name";
                              "raw_data" ]}
             /\ data !! "project" = Some (PStr (project v))
             /\ data !! "network" = Some (PStr (network v))
             /\ data !! "tags" = Some (PList (PStr <$> tags v))
             /\ data !! "instance_name" = Some (PStr (instance_name v))
             /\ data !! "raw_data" = Some (PStr (raw_data v))).
Proof.
  split.
  - intros violations. rewrite flatten_violations_fmap.
    split; [apply length_fmap|]. intros i. apply list_lookup_fmap.
  - intros v d. subst d. unfold flatten_violation. simpl.
    split; [rewrite !dom_insert_L, dom_empty_L; set_solver|].
    do 5 (split; [done|]).
    eexists. split; [done|].
    split; [rewrite !dom_insert_L, dom_empty_L; set_solver|].
    by repeat split.
Qed.

(* ===================================================================== *)
(** * The network extracted from a path *)
(* ===================================================================== *)

Section Paths.
Import Re.

Lemma append_cons a s t : String a s +:+ t = String a (s +:+ t).
Proof. reflexivity. Qed.

Lemma append_nil_l s : "" +:+ s = s.
Proof. reflexivity. Qed.

Lemma append_nil_r s : s +:+ "" = s.
Proof. induction s as [|a s IH]; [done|]. by rewrite append_cons, IH. Qed.

Lemma append_assoc s t u : (s +:+ t) +:+ u = s +:+ t +:+ u.
Proof. induction s as [|a s IH]; [done|]. by rewrite !append_cons, IH. Qed.

Lemma no_char_app c s t : no_char c (s +:+ t) = no_char c s && no_char c t.
Proof.
  induction s as [|a s IH]; [done|].
  rewrite append_cons. simpl. rewrite IH. by rewrite andb_assoc.
Qed.

Lemma all_in_app cl s t : all_in cl (s +:+ t) = all_in cl s && all_in cl t.
Proof.
  induction s as [|a s IH]; [done|].
  rewrite append_cons. simpl. rewrite IH. by rewrite andb_assoc.
Qed.

Lemma all_in_Dot s : all_in Dot s = no_char newline s.
Proof. induction s as [|a s IH]; simpl; [done|]. by rewrite IH. Qed.

Lemma all_in_NotChar c s : all_in (NotChar c) s = no_char c s.
Proof. induction s as [|a s IH]; simpl; [done|]. by rewrite IH. Qed.

(** Two ways to cut one string: one cut is inside the other's second part,
    or strictly inside its first part. *)
Lemma append_eq_split u :
  forall t a b,
    u +:+ t = a +:+ b ->
    (exists x, t = x +:+ b /\ a = u +:+ x)
    \/ (exists y, y <> "" /\ b = y +:+ t /\ u = a +:+ y).
Proof.
  induction u as [|c u IH]; intros t a b H.
  - left. exists a. by rewrite !append_nil_l in *.
  - destruct a as [|c' a].
    + right. exists (String c u). by rewrite !append_nil_l in *.
    + rewrite !append_cons in H. injection H as -> H.
      destruct (IH _ _ _ H) as [(x & -> & ->)|(y & Hy & -> & ->)].
      * left. by exists x.
      * right. by exists y.
Qed.

(** What a greedy repetition returns comes from a cut of the input after
    characters of the class. *)
Lemma star_greedy_split {R} cl (k : string -> string -> option R) s :
  forall acc r,
    star_greedy cl k acc s = Some r ->
    exists u s', s = u +:+ s' /\ all_in cl u = true
                 /\ k (acc +:+ u) s' = Some r.
Proof.
  induction s as [|a s IH]; intros acc r; simpl.
  - intros H. exists "", "". by rewrite !append_nil_r.
  - assert (Hstop : k acc (String a s) = Some r ->
              exists u s', String a s = u +:+ s' /\ all_in cl u = true
                           /\ k (acc +:+ u) s' = Some r).
    { intros H. exists "", (String a s). by rewrite !append_nil_r. }
    destruct (in_class cl a) eqn:Ha; [|done].
    destruct (star_greedy cl k _ s) as [r'|] eqn:E; [|done].
    intros [= <-]. apply IH in E as (u & s' & -> & Hu & Hk).
    exists (String a u), s'. rewrite append_cons. simpl. rewrite Ha, Hu.
    repeat split. by rewrite append_assoc in Hk.
Qed.

(** The repetition prefers the longer run: when it succeeds after a run of
    the class, it returns that result on the whole input. *)
Lemma star_greedy_longer {R} cl (k : string -> string -> option R) u :
  forall acc s r,
    all_in cl u = true ->
    star_greedy cl k (acc +:+ u) s = Some r ->
    star_greedy cl k acc (u +:+ s) = Some r.
Proof.
  induction u as [|a u IH]; intros acc s r Hu H.
  - by rewrite append_nil_r in H.
  - simpl in Hu. apply andb_true_iff in Hu as [Ha Hu].
    rewrite append_cons. simpl. rewrite Ha.
    rewrite (IH (acc +:+ String a "") s r Hu); [done|].
    by rewrite append_assoc.
Qed.

(** When the continuation fails after every non-empty run, the repetition is
    the continuation on the whole input. *)
Lemma star_greedy_stop {R} cl (k : string -> string -> option R) s :
  forall acc,
    (forall u s', s = u +:+ s' -> u <> "" -> k (acc +:+ u) s' = None) ->
    star_greedy cl k acc s = k acc s.
Proof.
  induction s as [|a s IH]; intros acc Hfail; simpl; [done|].
  destruct (in_class cl a); [|done].
  rewrite IH.
  - by rewrite (Hfail (String a "") s).
  - intros u s' -> Hu. rewrite append_assoc. apply Hfail; [|done].
    by rewrite append_cons, append_nil_l.
Qed.

Lemma star_greedy_is_Some_here {R} cl (k : string -> string -> option R)
    acc s :
  is_Some (k acc s) -> is_Some (star_greedy cl k acc s).
Proof.
  intros Hk. destruct s as [|b s]; simpl; [done|].
  destruct (in_class cl b); [|done].
  by destruct (star_greedy cl k _ s).
Qed.

(** The repetition succeeds as soon as the continuation does after some run
    of the class. *)
Lemma star_greedy_is_Some {R} cl (k : string -> string -> option R) u :
  forall acc s,
    all_in cl u = true ->
    is_Some (k (acc +:+ u) s) ->
    is_Some (star_greedy cl k acc (u +:+ s)).
Proof.
  induction u as [|a u IH]; intros acc s Hu Hk.
  - rewrite append_nil_r in Hk. rewrite append_nil_l.
    by apply star_greedy_is_Some_here.
  - simpl in Hu. apply andb_true_iff in Hu as [Ha Hu].
    rewrite append_cons. simpl. rewrite Ha.
    destruct (IH (acc +:+ String a "") s Hu) as [r ->]; [|done].
    by rewrite append_assoc.
Qed.

(** Literal characters at the head of a pattern. *)
Lemma match_lits a q w : match_here (lits a ++ q) (a +:+ w) = match_here q w.
Proof.
  induction a as [|c a IH]; [done|].
  rewrite append_cons. simpl. by rewrite Ascii.eqb_refl.
Qed.

Lemma match_lits_inv a q :
  forall w r,
    match_here (lits a ++ q) w = Some r ->
    exists w', w = a +:+ w' /\ match_here q w' = Some r.
Proof.
  induction a as [|c a IH]; intros w r; simpl.
  - intros H. by exists w.
  - destruct w as [|b w]; [done|].
    destruct (Ascii.eqb b c) eqn:E; [|done].
    apply Ascii.eqb_eq in E as ->.
    intros (w' & -> & H)%IH. by exists w'.
Qed.

(** A search that succeeds matched at an end part of the input. *)
Lemma re_search_Some p s :
  forall m, re_search p s = Some m ->
            exists u t, s = u +:+ t /\ match_here p t = Some m.
Proof.
  induction s as [|a s IH]; intros m; simpl.
  - destruct (match_here p "") eqn:E; [|done].
    intros [= <-]. by exists "", "".
  - destruct (match_here p (String a s)) eqn:E.
    + intros [= <-]. by exists "", (String a s).
    + intros (u & t & -> & H)%IH. by exists (String a u), t.
Qed.

(** A match at an end part of the input makes the search succeed. *)
Lemma re_search_is_Some p u :
  forall t, is_Some (match_here p t) -> is_Some (re_search p (u +:+ t)).
Proof.
  induction u as [|a u IH]; intros t Ht.
  - rewrite append_nil_l. destruct t; simpl; by destruct (match_here p _).
  - rewrite append_cons. simpl.
    destruct (match_here p (String a _)); [done|]. by apply IH.
Qed.

(** The second part of a pattern matches at an end part of the input, and
    its groups are the last ones. *)
Lemma match_here_app_inv q1 q2 :
  forall t m,
    match_here (q1 ++ q2) t = Some m ->
    exists u t' m1 m2,
      t = u +:+ t' /\ match_here q2 t' = Some m2 /\ m = m1 ++ m2.
Proof.
  induction q1 as [|[c|cl|cl|] q1 IH]; intros t m; simpl.
  - intros H. by exists "", t, [], m.
  - destruct t as [|a t]; [done|]. destruct (Ascii.eqb a c); [|done].
    intros (u & t' & m1 & m2 & -> & H & ->)%IH.
    by exists (String a u), t', m1, m2.
  - intros (u & s' & -> & _ & H)%star_greedy_split.
    apply IH in H as (u' & t' & m1 & m2 & -> & H & ->).
    exists (u +:+ u'), t', m1, m2. by rewrite append_assoc.
  - intros (u & s' & -> & _ & H)%star_greedy_split.
    destruct (match_here (q1 ++ q2) s') as [m'|] eqn:E; [|done].
    injection H as <-.
    apply IH in E as (u' & t' & m1 & m2 & -> & H & ->).
    exists (u +:+ u'), t', (("" +:+ u) :: m1), m2.
    by rewrite append_assoc.
  - destruct t; [|done].
    intros (u & t' & m1 & m2 & Hu & H & ->)%IH.
    by exists u, t', m1, m2.
Qed.

(** The last group takes the whole run of the class. *)
Lemma match_last_group cl n :
  forall acc,
    all_in cl n = true ->
    star_greedy cl (fun got rest => cons got <$> match_here [] rest) acc n
    = Some [acc +:+ n].
Proof.
  induction n as [|a n IH]; intros acc Hn; simpl.
  - by rewrite append_nil_r.
  - simpl in Hn. apply andb_true_iff in Hn as [-> Hn].
    rewrite (IH _ Hn). by rewrite append_assoc.
Qed.

(** No end part of [networks/n], other than the whole, starts with
    [networks/] when [n] has no [/]. *)
Lemma networks_no_overlap n y w :
  no_char "/" n = true ->
  y <> "" ->
  "networks/" +:+ n = y +:+ "networks/" +:+ w ->
  False.
Proof.
  intros Hn Hy H.
  destruct y as [|? y]; [done|].
  do 8 (rewrite !append_cons in H; injection H as _ H;
        destruct y as [|? y];
        [rewrite ?append_nil_l, ?append_cons in H; discriminate H|]).
  rewrite !append_cons, ?append_nil_l in H. injection H as _ H.
  rewrite H, no_char_app in Hn. apply andb_true_iff in Hn as [_ Hn].
  rewrite ?append_cons, ?append_nil_l in Hn. discriminate Hn.
Qed.

Lemma networks_tail_fails n y t q :
  no_char "/" n = true ->
  y <> "" ->
  "networks/" +:+ n = y +:+ t ->
  match_here (lits "networks/" ++ q) t = None.
Proof.
  intros Hn Hy H.
  destruct (match_here _ t) as [r|] eqn:E; [|done].
  apply match_lits_inv in E as (w & -> & _).
  destruct (networks_no_overlap n y w Hn Hy H).
Qed.

(** On [x networks/ n], where [x] has no newline and [n] no [/], the rest of
    [NETWORK_RE] captures [n]: the run of [.] goes to the last [networks/]. *)
Lemma match_tail x n :
  no_char newline x = true ->
  no_char "/" n = true ->
  match_here NETWORK_RE_tail (x +:+ "networks/" +:+ n) = Some [n].
Proof.
  intros Hx Hn. unfold NETWORK_RE_tail.
  change ([Star Dot] ++ lits "networks/" ++ [Group (NotChar "/")])
    with (Star Dot :: (lits "networks/" ++ [Group (NotChar "/")])).
  cbn [match_here].
  apply star_greedy_longer; [by rewrite all_in_Dot|].
  rewrite star_greedy_stop.
  - rewrite match_lits. cbn [match_here].
    rewrite match_last_group; [done|by rewrite all_in_NotChar].
  - intros u s' H Hu. by eapply networks_tail_fails.
Qed.

(** On a proper end part of [networks/n] the rest of [NETWORK_RE] fails. *)
Lemma match_tail_fails n y t :
  no_char "/" n = true ->
  y <> "" ->
  "networks/" +:+ n = y +:+ t ->
  match_here NETWORK_RE_tail t = None.
Proof.
  intros Hn Hy H.
  destruct (match_here _ t) as [r|] eqn:E; [|done].
  unfold NETWORK_RE_tail in E.
  change ([Star Dot] ++ lits "networks/" ++ [Group (NotChar "/")])
    with (Star Dot :: (lits "networks/" ++ [Group (NotChar "/")])) in E.
  cbn [match_here] in E.
  apply star_greedy_split in E as (u & s' & -> & _ & E).
  rewrite (networks_tail_fails n (y +:+ u) s') in E; [done|done| |].
  - destruct y; [done|]. by rewrite append_cons.
  - by rewrite append_assoc.
Qed.

End Paths.

Lemma NETWORK_RE_split :
  NETWORK_RE = NETWORK_RE_head ++ NETWORK_RE_tail.
Proof. reflexivity. Qed.

Lemma NETWORK_RE_steps :
  NETWORK_RE
  = Re.lits "compute/" ++
    Re.Star Re.Dot :: (Re.lits "/projects/" ++
    Re.Group (Re.NotChar "/") :: NETWORK_RE_tail).
Proof. reflexivity. Qed.

Lemma NETWORK_RE_tail_steps :
  NETWORK_RE_tail
  = Re.Star Re.Dot :: (Re.lits "networks/" ++ [Re.Group (Re.NotChar "/")]).
Proof. reflexivity. Qed.

(** X1.  On a path without a newline that has [compute/], later
    [/projects/], and ends with [networks/] and a name without [/], the
    search succeeds and the network extracted is that name, whatever stands
    before, between and after the first two markers. *)
Theorem extracted_network_of_path (t : InstanceNetworkTag)
    (pre v rest n : string) :
  nt_network t
  = pre +:+ "compute/" +:+ v +:+ "/projects/" +:+ rest +:+ "networks/" +:+ n ->
  no_char Re.newline (nt_network t) = true ->
  no_char "/" n = true ->
  conforms t /\ extracted_network t = Some n.
Proof.
  intros Hpath Hnl Hn.
  rewrite Hpath in Hnl. rewrite !no_char_app in Hnl.
  destruct (andb_prop _ _ Hnl) as [Hpre Hnl1].
  destruct (andb_prop _ _ Hnl1) as [_ Hnl2].
  destruct (andb_prop _ _ Hnl2) as [Hv Hnl3].
  destruct (andb_prop _ _ Hnl3) as [_ Hnl4].
  destruct (andb_prop _ _ Hnl4) as [Hrest _].
  assert (Hsome : is_Some (Re.re_search NETWORK_RE (nt_network t))).
  { rewrite Hpath. apply re_search_is_Some.
    rewrite NETWORK_RE_steps, match_lits. cbn [Re.match_here].
    apply star_greedy_is_Some; [by rewrite all_in_Dot|].
    rewrite match_lits. cbn [Re.match_here].
    apply star_greedy_is_Some_here.
    rewrite (match_tail rest n Hrest Hn). by eexists. }
  split; [done|].
  destruct Hsome as [m Hm]. unfold extracted_network. rewrite Hm. simpl.
  destruct (NETWORK_RE_groups _ _ Hm) as (p & net & -> & ->).
  apply re_search_Some in Hm as (u & t1 & Hu & Hm).
  rewrite NETWORK_RE_split in Hm.
  apply match_here_app_inv in Hm as (u' & t' & m1 & m2 & -> & Htail & Hm).
  assert (Hcut : (u +:+ u') +:+ t'
                 = (pre +:+ "compute/" +:+ v +:+ "/projects/" +:+ rest)
                   +:+ "networks/" +:+ n).
  { rewrite !append_assoc. by rewrite <- Hu, Hpath. }
  apply append_eq_split in Hcut as [(x & -> & Hx)|(y & Hy & Hcut & _)].
  - assert (Hxnl : no_char Re.newline x = true).
    { assert (Hall : no_char Re.newline
                       (pre +:+ "compute/" +:+ v +:+ "/projects/" +:+ rest)
                     = true).
      { rewrite !no_char_app, Hpre, Hv, Hrest. reflexivity. }
      rewrite Hx, no_char_app in Hall. by apply andb_prop in Hall as [_ ?]. }
    rewrite (match_tail x n Hxnl Hn) in Htail. injection Htail as <-.
    change [p; net] with ([p] ++ [net]) in Hm.
    apply app_inj_tail in Hm as [_ ->]. done.
  - by rewrite (match_tail_fails n y t' Hn Hy Hcut) in Htail.
Qed.

Lemma extracted_network_of_path_witness :
  conforms Sample.good_record
  /\ extracted_network Sample.good_record = Some "net1".
Proof.
  apply (extracted_network_of_path Sample.good_record
           "https://www.googleapis.com/" "v1" "p1/global/" "net1");
    reflexivity.
Defined.

(** The last group returns the longest run of its class: what follows is the
    end of the input or a character out of the class. *)
Lemma match_last_group_inv cl s :
  forall acc m,
    Re.star_greedy cl (fun got rest => cons got <$> Re.match_here [] rest)
      acc s = Some m ->
    exists g b,
      s = g +:+ b /\ all_in cl g = true /\ m = [acc +:+ g]
      /\ (b = "" \/ exists c b', b = String c b' /\ Re.in_class cl c = false).
Proof.
  induction s as [|a s IH]; intros acc m; simpl.
  - intros [= <-]. exists "", "". rewrite !append_nil_r.
    do 3 (split; [done|]). by left.
  - destruct (Re.in_class cl a) eqn:Ha.
    + destruct (Re.star_greedy cl _ _ s) as [r|] eqn:E.
      * intros [= <-]. apply IH in E as (g & b & -> & Hg & -> & Hb).
        exists (String a g), b. rewrite append_cons. simpl.
        rewrite Ha, Hg, append_assoc. by do 3 (split; [done|]).
      * assert (Hs : is_Some (Re.star_greedy cl
                       (fun got rest => cons got <$> Re.match_here [] rest)
                       (acc +:+ String a "") s)).
        { apply star_greedy_is_Some_here. by eexists. }
        simpl in Hs. rewrite E in Hs. by destruct Hs.
    + intros [= <-]. exists "", (String a s). rewrite !append_nil_r.
      do 3 (split; [done|]). right. by exists a, s.
Qed.

(** X2.  When a network is extracted, the path has [compute/], later
    [/projects/], later [networks/], and the network is the run of
    characters other than [/] that follows this [networks/], up to the next
    [/] or the end of the path.  A path without one of the three markers
    has no network extracted. *)
Theorem extracted_network_shape (t : InstanceNetworkTag) (n : string) :
  extracted_network t = Some n ->
  exists a1 a2 a3 b,
    nt_network t
    = a1 +:+ "compute/" +:+ a2 +:+ "/projects/" +:+ a3 +:+ "networks/"
      +:+ n +:+ b
    /\ no_char "/" n = true
    /\ (b = "" \/ exists b', b = String "/" b').
Proof.
  unfold extracted_network.
  destruct (Re.re_search NETWORK_RE (nt_network t)) as [m|] eqn:Hm; [|done].
  simpl. intros Hgroup.
  destruct (NETWORK_RE_groups _ _ Hm) as (p & net & -> & Hnet).
  assert (net = n) as -> by congruence.
  apply re_search_Some in Hm as (a1 & t0 & -> & Hm).
  rewrite NETWORK_RE_steps in Hm.
  apply match_lits_inv in Hm as (t1 & -> & Hm). cbn [Re.match_here] in Hm.
  apply star_greedy_split in Hm as (a2 & t2 & -> & _ & Hm).
  apply match_lits_inv in Hm as (t3 & -> & Hm). cbn [Re.match_here] in Hm.
  apply star_greedy_split in Hm as (g1 & t4 & -> & _ & Hm).
  destruct (Re.match_here NETWORK_RE_tail t4) as [m'|] eqn:Htail; [|done].
  injection Hm as _ ->.
  rewrite NETWORK_RE_tail_steps in Htail. cbn [Re.match_here] in Htail.
  apply star_greedy_split in Htail as (a3 & t5 & -> & _ & Htail).
  apply match_lits_inv in Htail as (t6 & -> & Htail).
  cbn [Re.match_here] in Htail.
  apply match_last_group_inv in Htail as (g & b & -> & Hg & [= ->] & Hb).
  exists a1, a2, (g1 +:+ a3), b.
  rewrite append_nil_l, !append_assoc. split; [done|].
  rewrite all_in_NotChar in Hg. split; [done|].
  destruct Hb as [->|(c & b' & -> & Hc)]; [by left|right].
  exists b'. simpl in Hc. apply negb_false_iff, Ascii.eqb_eq in Hc as ->.
  done.
Qed.

Lemma extracted_network_shape_witness :
  exists a1 a2 a3 b,
    Sample.path_net1
    = a1 +:+ "compute/" +:+ a2 +:+ "/projects/" +:+ a3 +:+ "networks/"
      +:+ "net1" +:+ b
    /\ no_char "/" "net1" = true
    /\ (b = "" \/ exists b', b = String "/" b').
Proof.
  apply (extracted_network_shape Sample.good_record "net1"). reflexivity.
Defined.

(* ===================================================================== *)
(** * More on Rule.find_violations *)
(* ===================================================================== *)

(** A list with a record that does not conform has a first such record. *)
Lemma first_not_conforming l :
  ~ Forall conforms l ->
  exists before bad after,
    l = before ++ bad :: after /\ Forall conforms before /\ ~ conforms bad.
Proof.
  induction l as [|t l IH]; intros Hl; [by destruct Hl|].
  destruct (decide (conforms t)) as [Ht|Ht].
  - destruct IH as (before & bad & after & -> & Hb & Hbad).
    { intros Hl'. apply Hl. by constructor. }
    exists (t :: before), bad, after. repeat split; [by constructor|done].
  - exists [], t, l. by repeat split.
Qed.

(** The generator stops at the first record that does not conform. *)
Lemma find_violations_bad_path_aborts_gen self before bad after :
  Forall conforms before ->
  ~ conforms bad ->
  find_violations self (before ++ bad :: after)
  = MkGen (yielded (find_violations self before)) (Some AttributeError).
Proof.
  intros Hb Hbad. rewrite find_violations_app.
  unfold chain. rewrite (find_violations_conforming self _ Hb).
  simpl. rewrite (find_violations_step_bad _ _ Hbad).
  by rewrite app_nil_r.
Qed.



(** X4.  A record without tags, its [tags] being [None] or empty, yields no
    violation under any rule, a rule with a whitelist included. *)
Theorem find_violations_no_tags (self : Rule) (t : InstanceNetworkTag) :
  conforms t ->
  or_nil (nt_tags t) = [] ->
  find_violations self [t] = MkGen [] None.
Proof.
  intros [network Hnet]%conforms_extracted Htags. simpl.
  rewrite (find_violations_step_extracted _ _ _ Hnet), Htags.
  unfold violates. simpl. by rewrite andb_false_r.
Qed.

Lemma find_violations_no_tags_witness :
  find_violations Sample.allowed_rule [Sample.record_with []] = MkGen [] None.
Proof.
  apply find_violations_no_tags; [by eexists|reflexivity].
Defined.

(** X5.  The verdict of a rule on a tag list depends on which tags occur
    only, and more tags never clear a violation. *)
Theorem violates_mono (r : RuleResource) (tags1 tags2 : list string) :
  (forall t, t ∈ tags1 -> t ∈ tags2) ->
  violates r tags1 = true ->
  violates r tags2 = true.
Proof.
  intros Hsub. rewrite !violates_spec.
  intros [(t & Ht & Hbl)|(Hwl & t & Ht & Hout)]; [left|right]; eauto 6.
Qed.

Lemma violates_mono_witness :
  violates (rule_rules Sample.allowed_rule) ["extra"; "ok"; "extra"] = true.
Proof.
  apply (violates_mono _ ["ok"; "extra"]); [|reflexivity].
  intros t Ht. apply list_elem_of_further.
  apply elem_of_cons in Ht as [->|Ht]; [apply list_elem_of_here|].
  by apply list_elem_of_further.
Defined.

(** X6.  The violations of a rule come in the order of the records, at most
    one for each: their instance names are a sublist of the instance names
    of the records. *)
Theorem find_violations_in_order (self : Rule) (l : list InstanceNetworkTag) :
  (instance_name <$> yielded (find_violations self l))
    `sublist_of` (nt_instance_name <$> l).
Proof.
  induction l as [|t l IH]; simpl; [done|].
  destruct (find_violations_step self t) as [vs|e] eqn:Hstep; simpl;
    [|apply sublist_nil_l].
  apply find_violations_step_Return in Hstep as (network & _ & ->).
  destruct (_ && _); simpl.
  - by apply sublist_skip.
  - by apply sublist_cons.
Qed.

(* ===================================================================== *)
(** * More on find_policy_violations *)
(* ===================================================================== *)

Lemma foldl_chain_raised recs rs :
  forall acc e,
    raised acc = Some e -> foldl (chain_step recs) acc rs = acc.
Proof.
  induction rs as [|r rs IH]; intros acc e He; simpl; [done|].
  unfold chain_step at 2. unfold chain. rewrite He. by eapply IH.
Qed.

Lemma foldl_chain_conforming recs rs :
  Forall conforms recs ->
  forall acc,
    raised acc = None ->
    foldl (chain_step recs) acc rs
    = MkGen (yielded acc
             ++ concat ((fun r => yielded (find_violations r recs)) <$> rs))
        None.
Proof.
  intros Hrecs. induction rs as [|r rs IH]; intros acc Hacc; simpl.
  - rewrite app_nil_r. by destruct acc; simplify_eq/=.
  - rewrite IH.
    + unfold chain_step, chain. rewrite Hacc. simpl. by rewrite app_assoc.
    + unfold chain_step, chain. rewrite Hacc. simpl.
      by apply find_violations_conforming.
Qed.

(** X7.  The chained generator of [find_policy_violations].  When every
    record conforms it ends without an exception and yields, rule after
    rule, what each rule yields.  When a record does not conform and there
    is a rule, it is the generator of the first rule: the violations of that
    rule on the records before the first bad one, then the
    [AttributeError]; no other rule is evaluated. *)
Theorem chain_rules_outcome (rs : list Rule) (recs : list InstanceNetworkTag) :
  (Forall conforms recs ->
   chain_rules rs recs
   = MkGen (concat ((fun r => yielded (find_violations r recs)) <$> rs)) None)
  /\ (forall r rs',
        rs = r :: rs' ->
        ~ Forall conforms recs ->
        chain_rules rs recs = find_violations r recs
        /\ raised (chain_rules rs recs) = Some AttributeError).
Proof.
  split.
  - intros Hrecs. unfold chain_rules.
    by rewrite (foldl_chain_conforming recs rs Hrecs chain_nil).
  - intros r rs' -> Hbad.
    apply first_not_conforming in Hbad
      as (before & bad & after & -> & Hb & Hbad).
    pose proof (find_violations_bad_path_aborts_gen r _ _ after Hb Hbad)
      as Hfv.
    assert (Heq : chain_rules (r :: rs') (before ++ bad :: after)
                  = find_violations r (before ++ bad :: after)).
    { unfold chain_rules. simpl. unfold chain_step at 2.
      rewrite (chain_nil_l (find_violations r _)).
      apply (foldl_chain_raised _ rs' _ AttributeError). by rewrite Hfv. }
    split; [done|]. by rewrite Heq, Hfv.
Qed.

Lemma chain_rules_outcome_witness :
  chain_rules [Sample.reserved_rule; Sample.allowed_rule]
    [Sample.good_record; Sample.bad_record; Sample.good_record]
  = find_violations Sample.reserved_rule
      [Sample.good_record; Sample.bad_record; Sample.good_record]
  /\ raised (chain_rules [Sample.reserved_rule; Sample.allowed_rule]
               [Sample.good_record; Sample.bad_record; Sample.good_record])
     = Some AttributeError.
Proof.
  apply (proj2 (chain_rules_outcome _ _) _ _ eq_refl).
  intros H. apply Forall_cons in H as [_ H]. apply Forall_cons in H as [H _].
  by apply bad_record_not_conforms.
Defined.

(* ===================================================================== *)
(** * More on the rule book *)
(* ===================================================================== *)



(** When every index of the batch is taken, the loop of [add_rules] on
    definitions that pass the schema test leaves the book as it is. *)
Lemma add_rules_from_present l :
  forall self i,
    Forall (fun d => faulty d = false) l ->
    (forall j, (j < length l)%nat ->
               is_Some (resource_rules_map self !! (i + Z.of_nat j))) ->
    add_rules_from self i l = (self, None).
Proof.
  induction l as [|d l IH]; intros self i Hl Hpresent; simpl; [done|].
  apply Forall_cons in Hl as [Hd Hl].
  destruct (add_rule_valid self d i Hd) as (rule & _ & ->).
  destruct (Hpresent 0%nat) as [r Hr]; [simpl; lia|].
  rewrite Z.add_0_r in Hr. rewrite Hr.
  apply IH; [done|]. intros j Hj.
  replace (i + 1 + Z.of_nat j) with (i + Z.of_nat (S j)) by lia.
  apply Hpresent. simpl. lia.
Qed.

(** In the book the constructor returns, the rule under a position of the
    definitions is the one compiled from the definition there. *)
Lemma RuleBook_init_lookup doc book n d :
  RuleBook_init (Some doc) = Return book ->
  or_nil (rules doc) !! n = Some d ->
  is_Some (compiled d (Z.of_nat n))
  /\ resource_rules_map book !! Z.of_nat n = compiled d (Z.of_nat n).
Proof.
  intros Hinit Hn.
  assert (Hvalid : Forall (fun d => faulty d = false) (or_nil (rules doc))).
  { unfold RuleBook_init, add_rules in Hinit.
    destruct (add_rules_from _ 0 _) as [self' [e|]] eqn:Hrun; [done|].
    by eapply add_rules_from_None. }
  rewrite Forall_lookup in Hvalid.
  destruct (not_faulty_compiled d (Z.of_nat n) (Hvalid _ _ Hn)) as [r Hr].
  split; [by eexists|]. rewrite Hr.
  apply (RuleBook_init_rules _ _ Hinit). by exists n, d.
Qed.

Lemma RuleBook_init_indexed doc book :
  RuleBook_init (Some doc) = Return book -> indexed book.
Proof.
  intros Hinit k r Hk.
  apply (RuleBook_init_rules _ _ Hinit) in Hk as (n & d & _ & -> & Hc).
  by eapply compiled_index.
Qed.

Lemma RuleBook_init_defs doc book :
  RuleBook_init (Some doc) = Return book -> rule_defs book = doc.
Proof.
  unfold RuleBook_init, add_rules. intros Hinit.
  destruct (add_rules_from _ 0 _) as [self' [e|]] eqn:Hrun; [done|].
  injection Hinit as ->.
  pose proof (add_rules_from_None _ _ _ _ Hrun) as Hvalid.
  destruct (add_rules_from_valid _ {| resource_rules_map := ∅;
                                      rule_defs := doc |} 0 Hvalid)
    as (self' & Hrun' & Hdefs & _).
  rewrite Hrun in Hrun'. by injection Hrun' as <-.
Qed.

(** The indices of the rules of a built book are the positions of the
    definitions. *)
Lemma RuleBook_init_indices doc book :
  RuleBook_init (Some doc) = Return book ->
  rule_index <$> get_resource_rules book
  ≡ₚ Z.of_nat <$> seq 0 (length (or_nil (rules doc))).
Proof.
  intros Hinit. apply NoDup_Permutation.
  - by apply indexed_NoDup, (RuleBook_init_indexed doc).
  - apply NoDup_fmap; [apply _|]. apply NoDup_seq.
  - intros k. rewrite !list_elem_of_fmap. split.
    + intros (r & -> & Hr). apply elem_of_get_resource_rules in Hr as [k Hk].
      pose proof (RuleBook_init_indexed _ _ Hinit _ _ Hk) as ->.
      apply (RuleBook_init_rules _ _ Hinit) in Hk as (n & d & Hn & -> & _).
      exists n. split; [done|]. apply elem_of_seq.
      apply lookup_lt_Some in Hn. lia.
    + intros (n & -> & Hn). apply elem_of_seq in Hn.
      destruct (lookup_lt_is_Some_2 (or_nil (rules doc)) n) as [d Hd]; [lia|].
      destruct (RuleBook_init_lookup _ _ _ _ Hinit Hd) as [[r Hr] Hk].
      exists r. split; [symmetry; by eapply compiled_index|].
      apply elem_of_get_resource_rules. exists (Z.of_nat n). congruence.
Qed.


(** X9.  A book the constructor returns keeps the document and has one rule
    for each definition: the rule under a position is the one compiled from
    the definition at that position, the indices of the rules are the
    positions, and there are as many rules as definitions. *)
Theorem RuleBook_init_complete (doc : RuleDefs) (book : RuleBook) :
  RuleBook_init (Some doc) = Return book ->
  rule_defs book = doc
  /\ Forall (fun d => faulty d = false) (or_nil (rules doc))
  /\ length (get_resource_rules book) = length (or_nil (rules doc))
  /\ rule_index <$> get_resource_rules book
     ≡ₚ Z.of_nat <$> seq 0 (length (or_nil (rules doc)))
  /\ (forall n d,
        or_nil (rules doc) !! n = Some d ->
        exists rule,
          compiled d (Z.of_nat n) = Some rule
          /\ resource_rules_map book !! Z.of_nat n = Some rule
          /\ rule ∈ get_resource_rules book).
Proof.
  intros Hinit. split; [by apply RuleBook_init_defs|]. split.
  { unfold RuleBook_init, add_rules in Hinit.
    destruct (add_rules_from _ 0 _) as [self' [e|]] eqn:Hrun; [done|].
    by eapply add_rules_from_None. }
  pose proof (RuleBook_init_indices _ _ Hinit) as Hperm.
  split; [|split; [done|]].
  - apply Permutation_length in Hperm.
    by rewrite !length_fmap, length_seq in Hperm.
  - intros n d Hn.
    destruct (RuleBook_init_lookup _ _ _ _ Hinit Hn) as [[r Hr] Hk].
    exists r. rewrite Hk. repeat split; try done.
    apply elem_of_get_resource_rules. exists (Z.of_nat n). congruence.
Qed.

Lemma RuleBook_init_complete_witness :
  length (get_resource_rules Sample.two_rules_book) = 2%nat.
Proof.
  destruct (RuleBook_init_complete Sample.two_rules Sample.two_rules_book)
    as (_ & _ & Hlen & _); [reflexivity|exact Hlen].
Defined.

(** X10.  When the rules file gives no definition (no document, no [rules]
    key or an empty list), a build gives an empty book, and
    [find_policy_violations] then yields nothing and raises nothing,
    whatever the records: a path that does not conform goes unnoticed. *)
Theorem no_rules_no_violations (load : string -> option RuleDefs)
    (self : RulesEngine) (recs : list InstanceNetworkTag)
    (force_rebuild : bool) :
  rule_book self = None \/ force_rebuild = true ->
  (load (rules_file_path self) = None
   \/ exists doc, load (rules_file_path self) = Some doc
                  /\ or_nil (rules doc) = []) ->
  exists book,
    resource_rules_map book = ∅
    /\ find_policy_violations load self recs force_rebuild
       = Return ({| rules_file_path := rules_file_path self;
                    rule_book := Some book |},
                 MkGen [] None).
Proof.
  intros Hbuild Hload. unfold find_policy_violations.
  assert (bool_decide (rule_book self = None) || force_rebuild = true)
    as ->.
  { destruct Hbuild as [->| ->]; [done|by rewrite orb_true_r]. }
  assert (Hempty : forall defs,
            chain_rules
              (get_resource_rules {| resource_rules_map := ∅;
                                     rule_defs := defs |}) recs
            = MkGen [] None).
  { intros defs. unfold get_resource_rules. simpl.
    by rewrite map_to_list_empty. }
  unfold build_rule_book, RuleBook_init, add_rules.
  destruct Hload as [->|(doc & -> & ->)]; simpl; rewrite Hempty;
    eexists; (split; [|reflexivity]); reflexivity.
Qed.

Lemma no_rules_no_violations_witness :
  exists book,
    resource_rules_map book = ∅
    /\ find_policy_violations (fun _ => None) (RulesEngine_init "rules.yaml")
         [Sample.bad_record] false
       = Return ({| rules_file_path := "rules.yaml";
                    rule_book := Some book |},
                 MkGen [] None).
Proof.
  apply (no_rules_no_violations (fun _ => None)
           (RulesEngine_init "rules.yaml") [Sample.bad_record] false).
  - by left.
  - by left.
Defined.


(** X11.  [add_rules] of the engine on a built book enumerates the new
    definitions from 0 again.  With definitions that pass the schema test,
    no exception is raised; a new definition at a position the document
    already had is dropped, the rule of the document staying; a new
    definition at a later position is compiled and stored under it; and a
    batch no longer than the document leaves the book as it is. *)
Theorem engine_add_rules_restarts (load : string -> option RuleDefs)
    (self e : RulesEngine) (doc : RuleDefs) (more : list RuleDef) :
  load (rules_file_path self) = Some doc ->
  build_rule_book load self = Return e ->
  Forall (fun d => faulty d = false) more ->
  exists book book',
    rule_book e = Some book
    /\ engine_add_rules e {| rules := Some more |}
       = ({| rules_file_path := rules_file_path e;
             rule_book := Some book' |}, None)
    /\ (forall n d,
          or_nil (rules doc) !! n = Some d ->
          resource_rules_map book' !! Z.of_nat n = compiled d (Z.of_nat n))
    /\ (forall n d,
          more !! n = Some d ->
          (length (or_nil (rules doc)) <= n)%nat ->
          resource_rules_map book' !! Z.of_nat n = compiled d (Z.of_nat n))
    /\ ((length more <= length (or_nil (rules doc)))%nat -> book' = book).
Proof.
  intros Hload Hbuild Hmore.
  apply build_rule_book_Return in Hbuild as (_ & book & Hbook & Hinit).
  rewrite Hload in Hinit.
  destruct (add_rules_from_valid more book 0 Hmore)
    as (book' & Hrun & _ & Hkeep & Hadd & _).
  exists book, book'. split; [done|].
  unfold engine_add_rules, add_rules. rewrite Hbook. simpl. rewrite Hrun.
  split; [done|]. split; [|split].
  - intros n d Hn.
    destruct (RuleBook_init_lookup _ _ _ _ Hinit Hn) as [[r Hr] Hk].
    rewrite Hr. apply Hkeep. congruence.
  - intros n d Hn Hlate.
    destruct (Hadd n d Hn) as [_ Hk]; [|by rewrite Z.add_0_l in Hk].
    rewrite Z.add_0_l.
    destruct (resource_rules_map book !! Z.of_nat n) as [r|] eqn:Hr; [|done].
    apply (RuleBook_init_rules _ _ Hinit) in Hr as (n' & d' & Hn' & Heq & _).
    apply lookup_lt_Some in Hn'. lia.
  - intros Hshort.
    rewrite add_rules_from_present in Hrun; [by injection Hrun as <-|done|].
    intros j Hj. rewrite Z.add_0_l.
    destruct (lookup_lt_is_Some_2 (or_nil (rules doc)) j) as [d Hd]; [lia|].
    destruct (RuleBook_init_lookup _ _ _ _ Hinit Hd) as [[r Hr] Hk].
    exists r. congruence.
Qed.

Lemma engine_add_rules_restarts_witness :
  engine_add_rules Sample.two_rules_engine
    {| rules := Some [Sample.allowed_def] |}
  = (Sample.two_rules_engine, None).
Proof.
  destruct (engine_add_rules_restarts Sample.load_two_rules
              (RulesEngine_init "rules.yaml") Sample.two_rules_engine
              Sample.two_rules [Sample.allowed_def])
    as (book & book' & Hbook & Hadd & _ & _ & Hsame).
  - reflexivity.
  - reflexivity.
  - by repeat constructor.
  - rewrite Hadd. injection Hbook as <-.
    rewrite Hsame; [reflexivity|simpl; lia].
Defined.

(** X12.  What [add_rules] of the engine added is used by
    [find_policy_violations] as long as no rebuild is forced, and is dropped
    by a forced rebuild, which gives what it gives on the engine before the
    addition. *)
Theorem forced_rebuild_drops_added (load : string -> option RuleDefs)
    (e e' : RulesEngine) (more : RuleDefs) (err : option exn)
    (recs : list InstanceNetworkTag) :
  engine_add_rules e more = (e', err) ->
  find_policy_violations load e' recs true
  = find_policy_violations load e recs true
  /\ (forall book',
        rule_book e' = Some book' ->
        find_policy_violations load e' recs false
        = Return (e', chain_rules (get_resource_rules book') recs)).
Proof.
  intros Hadd.
  assert (Hpath : rules_file_path e' = rules_file_path e).
  { unfold engine_add_rules in Hadd.
    destruct (rule_book e) as [book|]; [|by injection Hadd as <-].
    destruct (add_rules book more). by injection Hadd as <-. }
  split.
  - unfold find_policy_violations. rewrite !orb_true_r.
    unfold build_rule_book. by rewrite Hpath.
  - intros book' Hbook. unfold find_policy_violations.
    rewrite Hbook. simpl. by rewrite Hbook.
Qed.

Lemma forced_rebuild_drops_added_witness :
  find_policy_violations Sample.load_two_rules
    {| rules_file_path := "rules.yaml";
       rule_book :=
         Some {| resource_rules_map :=
                   {[ 0 := compile_rule Sample.allowed_def "p*" "net1" 0 ]};
                 rule_defs := {| rules := None |} |} |}
    [Sample.good_record] true
  = find_policy_violations Sample.load_two_rules
      {| rules_file_path := "rules.yaml";
         rule_book := Some Sample.empty_book |}
      [Sample.good_record] true.
Proof.
  apply (forced_rebuild_drops_added Sample.load_two_rules
           {| rules_file_path := "rules.yaml";
              rule_book := Some Sample.empty_book |} _
           {| rules := Some [Sample.allowed_def] |} None).
  reflexivity.
Defined.

(* ===================================================================== *)
(** * InstanceNetworkTagsScanner *)
(* ===================================================================== *)

Lemma chain_rules_conforming rs recs :
  Forall conforms recs -> raised (chain_rules rs recs) = None.
Proof.
  intros Hrecs. unfold chain_rules.
  by rewrite (foldl_chain_conforming recs rs Hrecs chain_nil).
Qed.

Lemma chain_rules_bad r rs recs :
  ~ Forall conforms recs ->
  raised (chain_rules (r :: rs) recs) = Some AttributeError.
Proof.
  intros (before & bad & after & -> & Hb & Hbad)%first_not_conforming.
  pose proof (find_violations_bad_path_aborts_gen r _ _ after Hb Hbad) as Hfv.
  unfold chain_rules. simpl. unfold chain_step at 2.
  rewrite (chain_nil_l (find_violations r _)).
  rewrite (foldl_chain_raised _ rs _ AttributeError); by rewrite Hfv.
Qed.

Section ScannerLemmas.
Variable load : string -> option RuleDefs.
Variable engine : RulesEngine.
Variable book : RuleBook.
Hypothesis Hbook : rule_book engine = Some book.

(** With a book in the engine, no rebuild takes place. *)
Lemma find_policy_violations_book recs :
  find_policy_violations load engine recs false
  = Return (engine, chain_rules (get_resource_rules book) recs).
Proof.
  unfold find_policy_violations. rewrite Hbook. simpl. by rewrite Hbook.
Qed.

(** A loop that returns has met no exception, and returns what the batches
    yield, in order. *)
Lemma find_violations_loop_Return data :
  forall acc engine' out,
    find_violations_loop load engine data acc = (engine', Return out) ->
    engine' = engine
    /\ out = acc ++ concat ((fun batch =>
                              yielded (chain_rules
                                         (get_resource_rules book) batch))
                            <$> data)
    /\ Forall (fun batch =>
                 raised (chain_rules (get_resource_rules book) batch)
                 = None) data.
Proof.
  induction data as [|batch data IH]; intros acc engine' out; simpl.
  - intros [= <- <-]. by rewrite app_nil_r.
  - rewrite find_policy_violations_book. unfold extend.
    destruct (raised (chain_rules _ batch)) eqn:Hr; [done|].
    intros (-> & -> & Hall)%IH.
    rewrite app_assoc. repeat split; by try constructor.
Qed.

Lemma find_violations_loop_conforming data :
  Forall (Forall conforms) data ->
  forall acc,
    find_violations_loop load engine data acc
    = (engine,
       Return (acc ++ concat ((fun batch =>
                                 yielded (chain_rules
                                            (get_resource_rules book) batch))
                              <$> data))).
Proof.
  induction 1 as [|batch data Hbatch _ IH]; intros acc; simpl.
  - by rewrite app_nil_r.
  - rewrite find_policy_violations_book. unfold extend.
    rewrite (chain_rules_conforming _ _ Hbatch), IH.
    by rewrite app_assoc.
Qed.

Lemma find_violations_loop_bad data :
  get_resource_rules book <> [] ->
  ~ Forall (Forall conforms) data ->
  forall acc,
    find_violations_loop load engine data acc
    = (engine, Raise AttributeError).
Proof.
  intros Hrules. destruct (get_resource_rules book) as [|r rs] eqn:Hrs;
    [done|].
  induction data as [|batch data IH]; intros Hdata acc; simpl.
  - by destruct Hdata.
  - rewrite find_policy_violations_book, Hrs. unfold extend.
    destruct (decide (Forall conforms batch)) as [Hbatch|Hbatch].
    + rewrite (chain_rules_conforming _ _ Hbatch). apply IH.
      intros Hdata'. apply Hdata. by constructor.
    + by rewrite (chain_rules_bad _ _ _ Hbatch).
Qed.

End ScannerLemmas.

Lemma scanner_eta (self : InstanceNetworkTagsScanner) :
  {| scanner_rules := scanner_rules self; rules_engine := rules_engine self |}
  = self.
Proof. by destruct self. Qed.

(** X13.  [_find_violations] on a scanner whose engine has its book.  When
    every record of every batch conforms, it returns the violations of the
    batches, batch after batch, and leaves the scanner as it is.  When the
    book has a rule and some record of some batch does not conform, it
    raises the [AttributeError]: no violation of the scan is returned. *)
Theorem scanner_find_violations_outcome (load : string -> option RuleDefs)
    (self : InstanceNetworkTagsScanner) (book : RuleBook)
    (data : list (list InstanceNetworkTag)) :
  rule_book (rules_engine self) = Some book ->
  (Forall (Forall conforms) data ->
   _find_violations load self data
   = (self,
      Return (concat ((fun batch =>
                         yielded (chain_rules (get_resource_rules book) batch))
                      <$> data))))
  /\ (get_resource_rules book <> [] ->
      ~ Forall (Forall conforms) data ->
      _find_violations load self data = (self, Raise AttributeError)).
Proof.
  intros Hbook. unfold _find_violations. split.
  - intros Hdata.
    rewrite (find_violations_loop_conforming load _ book Hbook data Hdata).
    by rewrite scanner_eta.
  - intros Hrules Hdata.
    rewrite (find_violations_loop_bad load _ book Hbook data Hrules Hdata).
    by rewrite scanner_eta.
Qed.

Lemma scanner_find_violations_outcome_witness :
  _find_violations Sample.load_two_rules
    {| scanner_rules := "rules.yaml";
       rules_engine := Sample.two_rules_engine |}
    [[Sample.good_record]; [Sample.good_record; Sample.bad_record]]
  = ({| scanner_rules := "rules.yaml";
        rules_engine := Sample.two_rules_engine |},
     Raise AttributeError).
Proof.
  apply (proj2 (scanner_find_violations_outcome Sample.load_two_rules
                  {| scanner_rules := "rules.yaml";
                     rules_engine := Sample.two_rules_engine |}
                  Sample.two_rules_book _ eq_refl)).
  - by vm_compute.
  - intros H. apply Forall_cons in H as [_ H]. apply Forall_cons in H as [H _].
    apply Forall_cons in H as [_ H]. apply Forall_cons in H as [H _].
    by apply bad_record_not_conforms.
Defined.

(** The fields of a flattened violation. *)
Lemma flatten_violation_lookup v :
  flatten_violation v !! "resource_id" = Some (PStr (instance_name v))
  /\ flatten_violation v !! "resource_type" = Some (PStr (resource_type v))
  /\ flatten_violation v !! "rule_index" = Some (PInt (rv_rule_index v))
  /\ flatten_violation v !! "rule_name" = Some (py_opt_str (rv_rule_name v))
  /\ flatten_violation v !! "violation_type"
     = Some (PStr (violation_type v))
  /\ exists data,
       flatten_violation v !! "violation_data" = Some (PDict data)
       /\ data !! "project" = Some (PStr (project v))
       /\ data !! "network" = Some (PStr (network v))
       /\ data !! "tags" = Some (PList (PStr <$> tags v))
       /\ data !! "raw_data" = Some (PStr (raw_data v)).
Proof.
  unfold flatten_violation. simpl.
  do 5 (split; [done|]). eexists. by repeat split.
Qed.

Lemma py_opt_str_inj o1 o2 : py_opt_str o1 = py_opt_str o2 -> o1 = o2.
Proof. destruct o1, o2; simpl; congruence. Qed.

(** X14.  Flattening loses nothing: two violations with the same flattened
    dictionary are the same violation, and so for lists of violations. *)
Theorem flatten_violations_inj (vs1 vs2 : list RuleViolation) :
  _flatten_violations vs1 = _flatten_violations vs2 -> vs1 = vs2.
Proof.
  assert (Hone : forall v1 v2,
            flatten_violation v1 = flatten_violation v2 -> v1 = v2).
  { intros v1 v2 Heq.
    destruct (flatten_violation_lookup v1)
      as (_ & Ht1 & Hi1 & Hn1 & Hv1 & d1 & Hd1 & Hp1 & Hw1 & Hg1 & Hr1).
    destruct (flatten_violation_lookup v2)
      as (Hid2 & Ht2 & Hi2 & Hn2 & Hv2 & d2 & Hd2 & Hp2 & Hw2 & Hg2 & Hr2).
    destruct (flatten_violation_lookup v1) as (Hid1 & _).
    rewrite Heq in Hid1, Ht1, Hi1, Hn1, Hv1, Hd1.
    assert (d1 = d2) as -> by congruence.
    assert (Htags : PStr <$> tags v1 = PStr <$> tags v2) by congruence.
    apply (inj (fmap PStr)) in Htags.
    assert (Hname : rv_rule_name v1 = rv_rule_name v2)
      by (apply py_opt_str_inj; congruence).
    destruct v1, v2; simpl in *. f_equal; congruence. }
  assert (Hinj : Inj (=) (=) flatten_violation) by exact Hone.
  rewrite (flatten_violations_fmap vs1), (flatten_violations_fmap vs2).
  apply (inj (fmap flatten_violation)).
Qed.

Lemma flatten_violations_inj_witness :
  [Sample.good_violation] = [Sample.good_violation].
Proof. apply flatten_violations_inj. reflexivity. Defined.

Example find_violations_two_rules :
  _find_violations Sample.load_two_rules
    {| scanner_rules := "rules.yaml";
       rules_engine := Sample.two_rules_engine |}
    [[Sample.record_with ["ok"; "extra"]]]
  = ({| scanner_rules := "rules.yaml";
        rules_engine := Sample.two_rules_engine |},
     Return [mk_violation Sample.allowed_rule
               (Sample.record_with ["ok"; "extra"]) "p1" "net1"
               ["ok"; "extra"]]).
Proof. vm_compute. reflexivity. Qed.

Example run_two_rules :
  run Sample.load_two_rules
    {| scanner_rules := "rules.yaml";
       rules_engine := Sample.two_rules_engine |}
    [[Sample.record_with ["ok"; "extra"]]]
  = ({| scanner_rules := "rules.yaml";
        rules_engine := Sample.two_rules_engine |},
     Return (_output_results
               [mk_violation Sample.allowed_rule
                  (Sample.record_with ["ok"; "extra"]) "p1" "net1"
                  ["ok"; "extra"]])).
Proof. unfold run. by rewrite find_violations_two_rules. Qed.

(** X15.  What a run hands to the output, on a scanner whose engine has its
    book: the scanner is left as it is, there are at most as many
    dictionaries as rules times retrieved records, and each dictionary is
    the flattened violation of a rule of the book on a retrieved record
    whose tags violate the rule: its [resource_id] is the instance name of
    the record and its [rule_index] the index of the rule. *)
Theorem run_output (load : string -> option RuleDefs)
    (self self' : InstanceNetworkTagsScanner) (book : RuleBook)
    (data : list (list InstanceNetworkTag))
    (out : list (gmap string pyval)) :
  rule_book (rules_engine self) = Some book ->
  run load self data = (self', Return out) ->
  self' = self
  /\ (length out
      <= size (resource_rules_map book) * length (concat data))%nat
  /\ (forall d, d ∈ out ->
        exists rule batch t network,
          rule ∈ get_resource_rules book
          /\ batch ∈ data
          /\ t ∈ batch
          /\ extracted_network t = Some network
          /\ in_scope rule t network = true
          /\ violates (rule_rules rule) (or_nil (nt_tags t)) = true
          /\ d = flatten_violation
                   (mk_violation rule t (nt_project_id t) network
                      (or_nil (nt_tags t)))
          /\ d !! "resource_id" = Some (PStr (nt_instance_name t))
          /\ d !! "rule_index" = Some (PInt (rule_index rule))).
Proof.
  intros Hbook. unfold run, _find_violations.
  destruct (find_violations_loop load (rules_engine self) data [])
    as [engine' [all|e]] eqn:Hloop; [|done].
  intros [= <- <-].
  apply (find_violations_loop_Return load _ book Hbook) in Hloop
    as (-> & -> & _).
  split; [apply scanner_eta|]. simpl.
  unfold _output_results. rewrite flatten_violations_fmap. split.
  - rewrite length_fmap, <- get_resource_rules_length.
    induction data as [|batch data IH]; simpl; [lia|].
    rewrite !length_app.
    rewrite Nat.mul_add_distr_l. apply Nat.add_le_mono; [|exact IH].
    apply chain_rules_length.
  - intros d (v & -> & Hv)%list_elem_of_fmap.
    apply list_elem_of_In, in_concat in Hv as (vs & Hvs & Hv).
    apply list_elem_of_In in Hvs, Hv.
    apply list_elem_of_fmap in Hvs as (batch & -> & Hbatch).
    apply chain_rules_elem in Hv as (rule & Hrule & Hv).
    apply find_violations_elem
      in Hv as (t & network & Ht & Hnet & Hs & Hviol & ->).
    exists rule, batch, t, network.
    by repeat split.
Qed.

Lemma run_output_witness :
  (length (_output_results
             [mk_violation Sample.allowed_rule
                (Sample.record_with ["ok"; "extra"]) "p1" "net1"
                ["ok"; "extra"]])
   <= size (resource_rules_map Sample.two_rules_book)
      * length (concat [[Sample.record_with ["ok"; "extra"]]]))%nat.
Proof.
  destruct (run_output Sample.load_two_rules
              {| scanner_rules := "rules.yaml";
                 rules_engine := Sample.two_rules_engine |}
              {| scanner_rules := "rules.yaml";
                 rules_engine := Sample.two_rules_engine |}
              Sample.two_rules_book
              [[Sample.record_with ["ok"; "extra"]]]
              (_output_results
                 [mk_violation Sample.allowed_rule
                    (Sample.record_with ["ok"; "extra"]) "p1" "net1"
                    ["ok"; "extra"]])
              eq_refl run_two_rules)
    as (_ & Hlen & _).
  exact Hlen.
Defined.

(* ===================================================================== *)
(** * Batches in pieces *)
(* ===================================================================== *)

(** X16.  A rule evaluated on a list of records in two pieces, the second
    generator chained after the first, gives what it gives on the whole
    list: the same violations in the same order, and the same exception if
    any. *)
Theorem find_violations_in_pieces (self : Rule)
    (l1 l2 : list InstanceNetworkTag) :
  find_violations self (l1 ++ l2)
  = chain (find_violations self l1) (find_violations self l2).
Proof. apply find_violations_app. Qed.

Lemma find_violations_yielded_app self l1 l2 :
  Forall conforms l1 ->
  yielded (find_violations self (l1 ++ l2))
  = yielded (find_violations self l1) ++ yielded (find_violations self l2).
Proof.
  intros Hl1. rewrite find_violations_app. unfold chain.
  by rewrite (find_violations_conforming self l1 Hl1).
Qed.

Lemma chain_rules_yielded rs recs :
  Forall conforms recs ->
  yielded (chain_rules rs recs)
  = concat ((fun r => yielded (find_violations r recs)) <$> rs).
Proof.
  intros Hrecs. unfold chain_rules.
  by rewrite (foldl_chain_conforming recs rs Hrecs chain_nil).
Qed.

Lemma concat_fmap_app_perm {A B} (f g : A -> list B) (l : list A) :
  concat ((fun x => f x ++ g x) <$> l)
  ≡ₚ concat (f <$> l) ++ concat (g <$> l).
Proof.
  induction l as [|x l IH]; simpl; [done|].
  rewrite IH. rewrite <- !app_assoc. apply Permutation_app_head.
  rewrite !app_assoc. apply Permutation_app_tail, Permutation_app_comm.
Qed.

Lemma chain_rules_app_perm rs l1 l2 :
  Forall conforms l1 ->
  Forall conforms l2 ->
  yielded (chain_rules rs (l1 ++ l2))
  ≡ₚ yielded (chain_rules rs l1) ++ yielded (chain_rules rs l2).
Proof.
  intros Hl1 Hl2.
  rewrite !chain_rules_yielded; [|done|done|by apply Forall_app].
  rewrite <- concat_fmap_app_perm.
  erewrite list_fmap_ext; [done|].
  intros i r _. by apply find_violations_yielded_app.
Qed.

(** X17.  When every record conforms, the scan, which hands the records to
    the engine batch by batch, returns the violations the engine yields on
    all the records in one call, up to their order. *)
Theorem scan_by_batch_permutation (load : string -> option RuleDefs)
    (self : InstanceNetworkTagsScanner) (book : RuleBook)
    (data : list (list InstanceNetworkTag)) :
  rule_book (rules_engine self) = Some book ->
  Forall (Forall conforms) data ->
  exists all_violations,
    _find_violations load self data = (self, Return all_violations)
    /\ all_violations
       ≡ₚ yielded (chain_rules (get_resource_rules book) (concat data)).
Proof.
  intros Hbook Hdata. eexists. split.
  - unfold _find_violations.
    rewrite (find_violations_loop_conforming load _ book Hbook data Hdata).
    by rewrite scanner_eta.
  - simpl. induction Hdata as [|batch data Hbatch Hdata IH]; simpl.
    + pose proof (chain_rules_length [] (get_resource_rules book)) as Hlen.
      rewrite Nat.mul_0_r in Hlen.
      by destruct (yielded (chain_rules _ [])); [|simpl in Hlen; lia].
    + rewrite IH. symmetry. apply chain_rules_app_perm; [done|].
      by apply Forall_concat.
Qed.

Lemma scan_by_batch_permutation_witness :
  exists all_violations,
    _find_violations Sample.load_two_rules
      {| scanner_rules := "rules.yaml";
         rules_engine := Sample.two_rules_engine |}
      [[Sample.good_record]; [Sample.record_with ["ok"; "extra"]]]
    = ({| scanner_rules := "rules.yaml";
          rules_engine := Sample.two_rules_engine |}, Return all_violations)
    /\ all_violations
       ≡ₚ yielded (chain_rules (get_resource_rules Sample.two_rules_book)
                     (concat [[Sample.good_record];
                              [Sample.record_with ["ok"; "extra"]]])).
Proof.
  apply (scan_by_batch_permutation Sample.load_two_rules
           {| scanner_rules := "rules.yaml";
              rules_engine := Sample.two_rules_engine |}
           Sample.two_rules_book); [reflexivity|].
  repeat constructor; by eexists.
Defined.

(** X18.  [add_rules] is idempotent: after a call that raised nothing, the
    same call again raises nothing and leaves the book as it is. *)
Theorem add_rules_idempotent (self self1 : RuleBook) (doc : RuleDefs) :
  add_rules self doc = (self1, None) ->
  add_rules self1 doc = (self1, None).
Proof.
  unfold add_rules. intros Hrun.
  pose proof (add_rules_from_None _ _ _ _ Hrun) as Hvalid.
  destruct (add_rules_from_valid _ self 0 Hvalid)
    as (self' & Hrun' & _ & Hkeep & Hadd & _).
  rewrite Hrun in Hrun'. injection Hrun' as <-.
  apply add_rules_from_present; [done|].
  intros j Hj.
  destruct (lookup_lt_is_Some_2 (or_nil (rules doc)) j) as [d Hd]; [done|].
  destruct (resource_rules_map self !! (0 + Z.of_nat j)) as [r|] eqn:Hr.
  - exists r. by apply Hkeep.
  - destruct (Hadd j d Hd Hr) as [Hsome ->]. done.
Qed.

Lemma add_rules_idempotent_witness :
  add_rules Sample.two_rules_book Sample.two_rules
  = (Sample.two_rules_book, None).
Proof.
  apply (add_rules_idempotent
           {| resource_rules_map := ∅; rule_defs := Sample.two_rules |}).
  reflexivity.
Defined.

(* ===================================================================== *)
(** * The helpers of the setup script *)
(* ===================================================================== *)

Lemma slice_from_app a b : slice_from (String.length a) (a +:+ b) = b.
Proof. induction a as [|c a IH]; [done|]. by rewrite append_cons. Qed.

(** X19.  [id_from_name] gives back the id of a name made of the resource
    type, a [/] and the id, and so does [org_id_from_org_name] for
    [organizations].  The type itself is not compared with the name: only
    its length counts, and a name no longer than the type and the [/] gives
    the empty string. *)
Theorem id_from_name_round_trip :
  (forall resource_type id,
     id_from_name (resource_type +:+ "/" +:+ id) resource_type = id)
  /\ (forall id, org_id_from_org_name ("organizations/" +:+ id) = id)
  /\ (forall name type1 type2,
        String.length type1 = String.length type2 ->
        id_from_name name type1 = id_from_name name type2)
  /\ (forall name resource_type,
        (String.length name <= String.length resource_type + 1)%nat ->
        id_from_name name resource_type = "").
Proof.
  assert (Hlen : forall a b, String.length (a +:+ b)
                             = (String.length a + String.length b)%nat).
  { intros a b. induction a as [|c a IH]; [done|].
    rewrite append_cons. simpl. by rewrite IH. }
  split; [|split; [|split]].
  - intros resource_type id. unfold id_from_name.
    rewrite <- append_assoc. apply slice_from_app.
  - intros id. apply (slice_from_app "organizations/").
  - intros name type1 type2 Heq. unfold id_from_name.
    by rewrite !Hlen, Heq.
  - intros name resource_type. unfold id_from_name. rewrite Hlen. simpl.
    generalize (String.length resource_type + 1)%nat. intros n.
    revert n. induction name as [|c name IH]; intros [|n] Hn; simpl in *;
      try done; try lia.
    apply IH. lia.
Qed.

Lemma id_from_name_round_trip_witness :
  id_from_name "folders/123" "project" = id_from_name "folders/123" "folders".
Proof.
  apply (proj1 (proj2 (proj2 id_from_name_round_trip))). reflexivity.
Defined.

Lemma sanitized_idemp v : sanitized (sanitized v) = sanitized v.
Proof. unfold sanitized. by destruct v as [[|]|]. Qed.

Lemma sanitize_key_lookup m key k :
  sanitize_key m key !! k
  = if decide (k = key) then sanitized <$> m !! k else m !! k.
Proof.
  unfold sanitize_key. destruct (decide (k = key)) as [->|Hne].
  - destruct (m !! key) as [v|] eqn:Hv; [|by rewrite Hv].
    unfold sanitized. destruct (conf_truthy v) eqn:Ht; simpl.
    + by rewrite Hv, Ht.
    + by rewrite lookup_insert_eq, Ht.
  - destruct (m !! key) as [v|]; [|done].
    destruct (conf_truthy v); [done|]. by rewrite lookup_insert_ne.
Qed.

Lemma sanitize_keys_lookup ks :
  forall m k,
    foldl sanitize_key m ks !! k
    = if decide (k ∈ ks) then sanitized <$> m !! k else m !! k.
Proof.
  induction ks as [|key ks IH]; intros m k.
  - destruct (decide (k ∈ [])) as [Hin|]; [by apply elem_of_nil in Hin|done].
  - cbn [foldl]. rewrite IH, sanitize_key_lookup.
    destruct (decide (k = key)) as [->|Hne].
    + destruct (decide (key ∈ key :: ks)) as [_|Hout];
        [|destruct Hout; apply list_elem_of_here].
      destruct (decide (key ∈ ks)); [|done].
      destruct (m !! key); simpl; [|done]. by rewrite sanitized_idemp.
    + destruct (decide (k ∈ ks)) as [Hin|Hout];
        destruct (decide (k ∈ key :: ks)) as [Hin'|Hout']; try done.
      * destruct Hout'. by apply list_elem_of_further.
      * apply elem_of_cons in Hin' as [?|?]; done.
Qed.

(** The loop of [_sanitize_conf_values] maps every value. *)
Lemma sanitize_conf_values_fmap m :
  _sanitize_conf_values m = sanitized <$> m.
Proof.
  apply map_eq. intros k. unfold _sanitize_conf_values.
  rewrite sanitize_keys_lookup, lookup_fmap.
  destruct (decide (k ∈ elements (dom m))) as [Hin|Hout]; [done|].
  rewrite elem_of_elements, elem_of_dom in Hout.
  destruct (m !! k); [|done]. destruct Hout. by eexists.
Qed.

(** X20.  [_sanitize_conf_values] keeps the keys, leaves every string that
    is not empty as it is, replaces every [None] and every empty string by
    the string of two double quotes, so that no value of the result is
    false, and a second pass changes nothing. *)
Theorem sanitize_conf_values_spec (m : gmap string (option string)) :
  dom (_sanitize_conf_values m) = dom m
  /\ (forall k v, _sanitize_conf_values m !! k = Some v ->
                  conf_truthy v = true)
  /\ (forall k v, m !! k = Some v -> conf_truthy v = true ->
                  _sanitize_conf_values m !! k = Some v)
  /\ (forall k v, m !! k = Some v -> conf_truthy v = false ->
                  _sanitize_conf_values m !! k = Some (Some QUOTES))
  /\ _sanitize_conf_values (_sanitize_conf_values m)
     = _sanitize_conf_values m.
Proof.
  rewrite !sanitize_conf_values_fmap. split; [apply dom_fmap_L|].
  split; [|split; [|split]].
  - intros k v. rewrite lookup_fmap.
    destruct (m !! k) as [w|]; [|done]. intros [= <-].
    unfold sanitized. by destruct w as [[|]|].
  - intros k v Hk Hv. rewrite lookup_fmap, Hk. simpl.
    unfold sanitized. by rewrite Hv.
  - intros k v Hk Hv. rewrite lookup_fmap, Hk. simpl.
    unfold sanitized. by rewrite Hv.
  - rewrite <- map_fmap_compose. apply map_fmap_ext.
    intros k v _. apply sanitized_idemp.
Qed.

Lemma sanitize_conf_values_spec_witness :
  _sanitize_conf_values
    {[ "SENDGRID_API_KEY" := None; "ENABLE_GROUP_SCANNER" := Some "true" ]}
  !! "SENDGRID_API_KEY"
  = Some (Some QUOTES).
Proof.
  apply (proj1 (proj2 (proj2 (proj2 (sanitize_conf_values_spec _))))
           "SENDGRID_API_KEY" None);
    reflexivity.
Defined.

(* ===================================================================== *)
(** * The arguments of the database connection *)
(* ===================================================================== *)

(** X21.  [DbConnector.__init__] gets its four arguments exactly when the
    configuration has [db_host], [db_user] and [db_name], whatever the
    environment: a missing key raises [KeyError], the first in that order,
    even when the environment has the variable.  Then each argument is the
    environment's variable when it is set, the configuration's value
    otherwise, and the password is empty when neither has it. *)
Theorem connect_args_spec (env cfg : gmap string string) :
  (forall host user name,
     cfg !! "db_host" = Some host ->
     cfg !! "db_user" = Some user ->
     cfg !! "db_name" = Some name ->
     connect_args env (Some cfg)
     = inr (getenv env "CLOUD_SQL_DB_HOST" host,
            getenv env "CLOUD_SQL_DB_USER" user,
            getenv env "CLOUD_SQL_DB_NAME" name,
            getenv env "CLOUD_SQL_DB_PASSWORD"
              (default "" (cfg !! "db_password"))))
  /\ (forall e, connect_args env (Some cfg) = inl e <->
        (cfg !! "db_host" = None /\ e = KeyError "db_host")
        \/ (is_Some (cfg !! "db_host") /\ cfg !! "db_user" = None
            /\ e = KeyError "db_user")
        \/ (is_Some (cfg !! "db_host") /\ is_Some (cfg !! "db_user")
            /\ cfg !! "db_name" = None /\ e = KeyError "db_name"))
  /\ connect_args env None = inl TypeError.
Proof.
  unfold connect_args, subscript, get_default. split; [|split; [|done]].
  - by intros host user name -> -> ->.
  - intros e.
    assert (Hnone : forall A, ~ is_Some (@None A)) by (by intros A [? [=]]).
    destruct (cfg !! "db_host") as [host|];
      [destruct (cfg !! "db_user") as [user|];
         [destruct (cfg !! "db_name") as [name|]|]|];
      (split;
       [intros [= <-];
        first [by left
              |right; left; by repeat split
              |right; right; by repeat split]
       |intros [(? & ->)|[(? & ? & ->)|(? & ? & ? & ->)]];
        first [done|by destruct (Hnone string)]]).
Qed.

Lemma connect_args_spec_witness :
  connect_args {[ "CLOUD_SQL_DB_HOST" := "10.0.0.1" ]}
    (Some {[ "db_host" := "127.0.0.1"; "db_user" := "root";
             "db_name" := "forseti" ]})
  = inr ("10.0.0.1", "root", "forseti", "").
Proof.
  rewrite (proj1 (connect_args_spec
                    {[ "CLOUD_SQL_DB_HOST" := "10.0.0.1" ]}
                    {[ "db_host" := "127.0.0.1"; "db_user" := "root";
                       "db_name" := "forseti" ]})
             "127.0.0.1" "root" "forseti");
    reflexivity.
Defined.
